(** * tensor2tensor/rl/ppo.py : the PPO optimisation step, as Rocq functions

    The TensorFlow graph built by [define_ppo_epoch] is read as the function
    it computes when it is run once.  Tensors are nested lists in time-major
    order; a float is an exact rational or one of the three special values of
    IEEE arithmetic, so that [tf.check_numerics] and division by zero can be
    told apart from ordinary results.  Neither rounding nor overflow is
    modelled: an operation on finite operands is exact and finite here, where
    float32 rounds and may give an infinity.  The properties below are
    therefore stated on what the code computes, operation by operation (each
    [fadd], [fmul], [fdiv], [flt] standing for the one float operation of the
    source), and on the results it returns; none of them says that a result
    is finite because its operands are. *)

From Stdlib Require Import String ZArith QArith Qround List Bool Lia Lra Lqa Permutation.
Import ListNotations.

Local Open Scope Z_scope.

(** ** Floats *)

Inductive fval : Type :=
| Fin (q : Q)
| PInf
| NInf
| NaN.

Definition is_finite (x : fval) : bool :=
  match x with Fin _ => true | _ => false end.

(** The rational carried by a finite float (0 for the special values). *)
Definition val (x : fval) : Q :=
  match x with Fin q => q | _ => 0%Q end.

Definition qsign (q : Q) : comparison := (Qnum q ?= 0)%Z.

Definition fopp (x : fval) : fval :=
  match x with
  | Fin q => Fin (- q)
  | PInf => NInf
  | NInf => PInf
  | NaN => NaN
  end.

Definition fadd (x y : fval) : fval :=
  match x, y with
  | NaN, _ | _, NaN => NaN
  | Fin a, Fin b => Fin (a + b)
  | PInf, NInf | NInf, PInf => NaN
  | PInf, _ | _, PInf => PInf
  | NInf, _ | _, NInf => NInf
  end.

Definition fsub (x y : fval) : fval := fadd x (fopp y).

(** An infinity scaled by a finite factor: its sign follows the factor, and
    a zero factor gives NaN. *)
Definition scale_inf (inf : fval) (a : Q) : fval :=
  match qsign a with
  | Eq => NaN
  | Gt => inf
  | Lt => fopp inf
  end.

Definition fmul (x y : fval) : fval :=
  match x, y with
  | NaN, _ | _, NaN => NaN
  | Fin a, Fin b => Fin (a * b)
  | Fin a, inf => scale_inf inf a
  | inf, Fin b => scale_inf inf b
  | PInf, PInf | NInf, NInf => PInf
  | PInf, NInf | NInf, PInf => NInf
  end.

(** Division; a zero divisor counts as +0 (signed zeros are not modelled). *)
Definition fdiv (x y : fval) : fval :=
  match x, y with
  | NaN, _ | _, NaN => NaN
  | Fin a, Fin b =>
      match qsign b with
      | Eq => match qsign a with Eq => NaN | Gt => PInf | Lt => NInf end
      | _ => Fin (a / b)
      end
  | Fin _, _ => Fin 0
  | inf, Fin b => match qsign b with Lt => fopp inf | _ => inf end
  | _, _ => NaN
  end.

(** [x < y]; every comparison with NaN is false. *)
Definition flt (x y : fval) : bool :=
  match x, y with
  | NaN, _ | _, NaN => false
  | Fin a, Fin b => match (a ?= b)%Q with Lt => true | _ => false end
  | NInf, NInf | PInf, PInf => false
  | NInf, _ | _, PInf => true
  | _, _ => false
  end.

(** tf.minimum and tf.maximum: [x < y ? x : y] and [x > y ? x : y]. *)
Definition fmin (x y : fval) : fval := if flt x y then x else y.
Definition fmax (x y : fval) : fval := if flt y x then x else y.

(** tf.clip_by_value(t, lo, hi) is maximum(minimum(t, hi), lo). *)
Definition clip_by_value (t lo hi : fval) : fval := fmax (fmin t hi) lo.

Definition of_bool (b : bool) : fval := if b then Fin 1 else Fin 0.
Definition of_Z (z : Z) : fval := Fin (inject_Z z).
Definition of_nat (n : nat) : fval := of_Z (Z.of_nat n).

(** ** Errors *)

Inductive error : Type :=
| NumericError (message : string)   (* tf.check_numerics *)
| AssertionError (message : string) (* a failed assert *)
| ZeroDivisionError                 (* integer division by zero *)
| ShapeError                        (* incompatible or impossible shapes *)
| IndexError.                       (* an index out of range *)

Inductive result (A : Type) : Type :=
| Ok (a : A)
| Err (e : error).
Arguments Ok {A} a.
Arguments Err {A} e.

Definition bind {A B : Type} (r : result A) (k : A -> result B) : result B :=
  match r with
  | Ok a => k a
  | Err e => Err e
  end.

Notation "x <- c ;; k" := (bind c (fun x => k))
  (at level 61, c at next level, right associativity).
Notation "' p <- c ;; k" := (bind c (fun p => k))
  (at level 61, p pattern, c at next level, right associativity).

Fixpoint mapM {A B : Type} (f : A -> result B) (l : list A) : result (list B) :=
  match l with
  | [] => Ok []
  | a :: l' => b <- f a ;; bs <- mapM f l' ;; Ok (b :: bs)
  end.

(** ** Tensors *)

#[warnings="-notation-for-abbreviation"]
Notation row := (list fval).                  (* shape [B] *)
#[warnings="-notation-for-abbreviation"]
Notation tensor := (list (list fval)).        (* shape [T, B] *)
#[warnings="-notation-for-abbreviation"]
Notation tensor3 := (list (list (list fval))). (* shape [T, B, K] *)

Fixpoint map2 {A B C : Type} (f : A -> B -> C) (l1 : list A) (l2 : list B) : list C :=
  match l1, l2 with
  | a :: l1', b :: l2' => f a b :: map2 f l1' l2'
  | _, _ => []
  end.

(** Elementwise operators, for operands of one shape: the tensors of one
    trajectory batch all have the shape [T, B].  On operands of different
    shapes TensorFlow broadcasts or fails, while [map2] stops at the shorter
    one, so these operators say nothing there: every theorem that uses them
    states the common shape of the operands. *)
Definition row_add : row -> row -> row := map2 fadd.
Definition row_sub : row -> row -> row := map2 fsub.
Definition row_mul : row -> row -> row := map2 fmul.
Definition row_scale (c : fval) (r : row) : row := map (fmul c) r.

Definition t_add : tensor -> tensor -> tensor := map2 row_add.
Definition t_sub : tensor -> tensor -> tensor := map2 row_sub.
Definition t_mul : tensor -> tensor -> tensor := map2 row_mul.
Definition t_scale (c : fval) (t : tensor) : tensor := map (row_scale c) t.

(** 1 - tf.cast(done, tf.float32) *)
Definition not_done_row (d : list bool) : row :=
  map (fun b => fsub (Fin 1) (of_bool b)) d.
Definition not_done_of (done : list (list bool)) : tensor := map not_done_row done.

(** x[:-1] *)
Definition all_but_last {A : Type} (l : list A) : list A := removelast l.

Definition fsum (l : list fval) : fval := fold_left fadd l (Fin 0).

(** tf.reduce_mean over every axis of a [T, B] tensor. *)
Definition reduce_mean (t : tensor) : fval :=
  let flat := concat t in
  fdiv (fsum flat) (of_nat (length flat)).

(** tf.check_numerics(t, message) *)
Definition check_numerics (t : tensor) (message : string) : result tensor :=
  if forallb (forallb is_finite) t then Ok t else Err (NumericError message).

(** tf.scan(fn, elems, initializer): the accumulator after each element. *)
Fixpoint scan {A E : Type} (fn : A -> E -> A) (elems : list E) (init : A) : list A :=
  match elems with
  | [] => []
  | e :: es => let a := fn init e in a :: scan fn es a
  end.

(** tf.scan(..., reverse=True): elements are consumed from the last to the
    first and each result stays at the position of its element. *)
Definition scan_reverse {A E : Type} (fn : A -> E -> A) (elems : list E) (init : A) : list A :=
  rev (scan fn (rev elems) init).

Definition row_scale_r (r : row) (c : fval) : row := map (fun x => fmul x c) r.

Fixpoint last_opt {A : Type} (l : list A) : option A :=
  match l with
  | [] => None
  | [a] => Some a
  | _ :: l' => last_opt l'
  end.

(** tf.range(lo, hi) *)
Definition zrange (lo hi : Z) : list Z :=
  map (fun k => lo + Z.of_nat k) (seq 0 (Z.to_nat (hi - lo))).

(** ** External numeric kernels

    Transcendental operators of TensorFlow, which have no rational model. *)

Class Kernels : Type := {
  softmax : row -> row;         (* tf.nn.softmax over the last axis *)
  log_softmax : row -> row;     (* tf.nn.log_softmax over the last axis *)
  sqrt : fval -> fval           (* tf.sqrt *)
}.

(** ** calculate_generalized_advantage_estimator *)

Definition gae_step (gae_gamma gae_lambda : Q) (agg : row) (cur : row * row) : row :=
  row_add (fst cur)
          (row_mul (row_scale_r (row_scale_r (snd cur) (Fin gae_gamma)) (Fin gae_lambda)) agg).

Definition gae_delta (reward value : tensor) (done : list (list bool)) (gae_gamma : Q) : tensor :=
  let next_value := tl value in
  let next_not_done := not_done_of (tl done) in
  t_sub (t_add (all_but_last reward)
               (t_mul (t_scale (Fin gae_gamma) next_value) next_not_done))
        (all_but_last value).

Definition calculate_generalized_advantage_estimator
    (reward value : tensor) (done : list (list bool)) (gae_gamma gae_lambda : Q)
    : result tensor :=
  let next_not_done := not_done_of (tl done) in
  let delta := gae_delta reward value done gae_gamma in
  match delta with
  | [] => Err IndexError                                   (* delta[0, :] *)
  | delta0 :: _ =>
      let zeros := map (fun _ => Fin 0) delta0 in
      let return_ :=
        rev (scan (gae_step gae_gamma gae_lambda)
                  (combine (rev delta) (rev next_not_done))
                  zeros) in
      check_numerics return_ "return"
  end.

(** ** discounted_rewards *)

Definition discounted_rewards
    (reward : tensor) (done : list (list bool)) (gae_gamma : Q) (end_values : row)
    : result tensor :=
  let not_done := not_done_of done in
  match last_opt not_done with
  | None => Err IndexError                                 (* not_done[-1, :] *)
  | Some not_done_last =>
      let end_values := row_mul end_values not_done_last in
      let return_ :=
        scan_reverse (fun agg cur => row_add cur (row_scale (Fin gae_gamma) agg))
                     (t_mul reward not_done)
                     end_values in
      check_numerics return_ "return"
  end.

(** ** _distributional_to_value *)

(** (tf.to_float(tf.range(-half, half)) + 0.5) * subscale *)
Definition value_range (size : Z) (subscale : Q) : list Q :=
  let half := size / 2 in
  map (fun i => ((inject_Z i + (1 # 2)) * subscale)%Q) (zrange (- half) half).

(** probs * value_range: the last axis of [probs] against a vector, with
    TensorFlow's broadcasting (equal lengths, or one of them 1). *)
Definition broadcast_mul (probs range : row) : result row :=
  if (length probs =? length range)%nat then Ok (map2 fmul probs range)
  else match probs, range with
       | _, [v] => Ok (map (fun p => fmul p v) probs)
       | [p], _ => Ok (map (fmul p) range)
       | _, _ => Err ShapeError
       end.

(** tf.cumsum over the last axis *)
Definition cumsum (r : row) : row := scan fadd r (Fin 0).

(** Lines 97-99: the probabilities left by the threshold filter, before they
    are renormalized. *)
Definition filtered_probs (probs : row) (threshold : Q) : row :=
  let accumulated_probs := cumsum probs in
  map2 (fun a p => if flt a (Fin threshold) then Fin 0 else p) accumulated_probs probs.

Section Decoder.
Context `{Kernels}.

(** One leading index of [_distributional_to_value]: the logits of one
    value distribution. *)
Definition distributional_to_value_row
    (logits : row) (size : Z) (subscale threshold : Q) : result fval :=
  let value_range := map Fin (value_range size subscale) in
  let probs := softmax logits in
  if Qeq_bool threshold 0 then
    weighted <- broadcast_mul probs value_range ;;
    Ok (fsum weighted)
  else
    let probs := filtered_probs probs threshold in
    let total := fsum probs in
    let probs := map (fun p => fdiv p total) probs in
    weighted <- broadcast_mul probs value_range ;;
    Ok (fsum weighted).

Definition _distributional_to_value
    (value_d : tensor3) (size : Z) (subscale threshold : Q) : result tensor :=
  mapM (mapM (fun logits => distributional_to_value_row logits size subscale threshold))
       value_d.
End Decoder.

(** ** Hyperparameters and collaborators *)

Record HParams : Type := {
  clipping_coef : Q;
  value_loss_coef : Q;
  entropy_loss_coef : Q;
  gae_gamma : Q;
  gae_lambda : Q;
  epoch_length : Z;
  optimization_epochs : Z;
  optimization_batch_size : Z;
  effective_num_agents : option Z;
  rewards_preprocessing_fun : option (tensor -> tensor);
  policy_network : string
}.

(** (observation, action, discounted_reward, norm_advantage, old_pdf) *)
Record DataPoints (obs : Type) : Type := {
  dp_observation : list (list obs);
  dp_action : list (list Z);
  dp_discounted_reward : tensor;
  dp_norm_advantage : tensor;
  dp_old_pdf : tensor
}.
Arguments dp_observation {obs} d.
Arguments dp_action {obs} d.
Arguments dp_discounted_reward {obs} d.
Arguments dp_norm_advantage {obs} d.
Arguments dp_old_pdf {obs} d.

(** What the module imports: the policy network (on a flat batch of
    observations it returns, per observation, the action logits and the
    outputs of the value head), the categorical distribution, the optimizer
    (one update of the network's variables), the learning-rate schedule and
    the random shuffle (the permutation drawn by the k-th shuffle of a run).
    They are functions: a call of a collaborator completes, and what it
    raises in TensorFlow is outside these definitions. *)
Class Collaborators (obs params : Type) : Type := {
  get_policy : params -> HParams -> Z -> Z -> list obs -> list row * list row;
  categorical_prob : row -> Z -> fval;
  categorical_entropy : row -> fval;
  optimize : params -> HParams -> fval -> DataPoints obs -> params;
  learning_rate_schedule : HParams -> fval;
  random_shuffle : nat -> list Z -> list Z;
  random_shuffle_perm : forall k l, Permutation (random_shuffle k l) l
}.

(** tf.reshape of a flat list to [n, b, ...] *)
Fixpoint chunks {A : Type} (n b : nat) (flat : list A) : list (list A) :=
  match n with
  | O => []
  | S n' => firstn b flat :: chunks n' b (skipn b flat)
  end.

Definition reshape_rows {A : Type} (n b : nat) (flat : list A) : result (list (list A)) :=
  if (length flat =? n * b)%nat then Ok (chunks n b flat) else Err ShapeError.

(** tf.floor *)
Definition ffloor (x : fval) : fval :=
  match x with
  | Fin q => Fin (inject_Z (Qfloor q))
  | _ => x
  end.

(** tf.one_hot(tf.cast(x, tf.int32), depth): an index outside [0, depth)
    gives the zero vector; so does the cast of a non-finite float. *)
Definition one_hot_cast (x : fval) (depth : Z) : row :=
  map (fun i => match x with
                | Fin q => of_bool (Qfloor q =? i)
                | _ => Fin 0
                end)
      (zrange 0 depth).

(** The elementwise surrogate objective of one sample. *)
Definition surrogate (clipping_coef : Q) (ratio norm_advantage : fval) : fval :=
  let clipped_ratio :=
    clip_by_value ratio (Fin (1 - clipping_coef)) (Fin (1 + clipping_coef)) in
  fmin (fmul clipped_ratio norm_advantage) (fmul ratio norm_advantage).

(** ** define_ppo_step *)

(** Lines 49-55: the policy loss, from the probabilities of the taken
    actions under the new and the old policy. *)
Definition policy_loss_of (clipping_coef : Q) (new_pdf old_pdf norm_advantage : tensor)
    : fval :=
  let ratio := map2 (map2 fdiv) new_pdf old_pdf in
  let surrogate_objective :=
    map2 (map2 (surrogate clipping_coef)) ratio norm_advantage in
  fopp (reduce_mean surrogate_objective).

(** Lines 70-72: the value loss of the scalar mode. *)
Definition scalar_value_loss (value_loss_coef : Q) (new_value discounted_reward : tensor)
    : fval :=
  let value_error := t_sub new_value discounted_reward in
  fmul (Fin value_loss_coef) (reduce_mean (t_mul value_error value_error)).

(** Lines 74-75: the entropy loss. *)
Definition entropy_loss_of (entropy_loss_coef : Q) (entropy : tensor) : fval :=
  fmul (Fin (- entropy_loss_coef)) (reduce_mean entropy).

Section Step.
Context {obs params : Type} `{Kernels} `{Collaborators obs params}.

(** Lines 58-68: the value loss of the distributional mode. *)
Definition distributional_value_loss
    (value_loss_coef : Q) (new_value : tensor3) (discounted_reward : tensor)
    (distributional_size : Z) (distributional_subscale : Q) : fval :=
  let new_value := map (map log_softmax) new_value in
  let half := (inject_Z (distributional_size / 2) * distributional_subscale)%Q in
  let quantized_dr :=
    map (map (fun d => ffloor (fdiv (fadd d (Fin half)) (Fin distributional_subscale))))
        discounted_reward in
  let hot_dr := map (map (fun q => one_hot_cast q distributional_size)) quantized_dr in
  let value_loss :=
    map2 (map2 (fun v h => fopp (fsum (row_mul v h)))) new_value hot_dr in
  fmul (Fin value_loss_coef) (reduce_mean value_loss).

(** Lines 57-72: the value loss, after the reshape of the value head's
    outputs to the first two axes of the observations. *)
Definition value_loss_of
    (value_loss_coef : Q) (n b : nat) (new_value : list row) (discounted_reward : tensor)
    (distributional_size : Z) (distributional_subscale : Q) : result fval :=
  if distributional_size >? 1 then
    new_value <- reshape_rows n b new_value ;;
    Ok (distributional_value_loss value_loss_coef new_value discounted_reward
                                  distributional_size distributional_subscale)
  else
    new_value <- reshape_rows n b (concat new_value) ;;
    Ok (scalar_value_loss value_loss_coef new_value discounted_reward).

Definition define_ppo_step
    (theta : params) (data_points : DataPoints obs) (hparams : HParams)
    (action_space_n : Z) (lr : fval)
    (distributional_size : Z) (distributional_subscale : Q)
    : result (params * list fval) :=
  let observation := dp_observation data_points in
  let discounted_reward := dp_discounted_reward data_points in
  let n := length observation in
  let b := length (hd [] observation) in
  let '(logits, new_value) :=
    get_policy theta hparams action_space_n distributional_size (concat observation) in
  logits <- reshape_rows n b logits ;;
  let new_pdf := map2 (map2 categorical_prob) logits (dp_action data_points) in
  let policy_loss :=
    policy_loss_of (clipping_coef hparams) new_pdf (dp_old_pdf data_points)
                   (dp_norm_advantage data_points) in
  value_loss <-
    value_loss_of (value_loss_coef hparams) n b new_value discounted_reward
                  distributional_size distributional_subscale ;;
  let entropy := map (map categorical_entropy) logits in
  let entropy_loss := entropy_loss_of (entropy_loss_coef hparams) entropy in
  let losses := [policy_loss; value_loss; entropy_loss] in
  let theta' := optimize theta hparams lr data_points in
  Ok (theta', losses).
End Step.

(** ** define_ppo_epoch *)

(** The value estimates of the collected trajectory: one number per step and
    agent, or the logits of a distribution over value buckets. *)
Inductive value_tensor : Type :=
| ScalarValue (v : tensor)
| DistributionalValue (v : tensor3).

(** (observation, reward, done, action, old_pdf, value_sm) *)
Record Memory (obs : Type) : Type := {
  m_observation : list (list obs);
  m_reward : tensor;
  m_done : list (list bool);
  m_action : list (list Z);
  m_old_pdf : tensor;
  m_value_sm : value_tensor
}.
Arguments m_observation {obs} m.
Arguments m_reward {obs} m.
Arguments m_done {obs} m.
Arguments m_action {obs} m.
Arguments m_old_pdf {obs} m.
Arguments m_value_sm {obs} m.

(** Python's [a // b] on integers. *)
Definition floordiv (a b : Z) : result Z :=
  if b =? 0 then Err ZeroDivisionError else Ok (a / b).

(** Lines 146-154: the number of minibatches and the local epoch length. *)
Definition batches_and_length (hparams : HParams) (batch_size : Z) : result (Z * Z) :=
  number_of_batches <-
    floordiv ((epoch_length hparams - 1) * optimization_epochs hparams)
             (optimization_batch_size hparams) ;;
  let epoch_length := epoch_length hparams in
  '(number_of_batches, epoch_length) <-
    match effective_num_agents hparams with
    | Some agents =>
        let number_of_batches := number_of_batches * batch_size in
        number_of_batches <- floordiv number_of_batches agents ;;
        epoch_length <- floordiv epoch_length agents ;;
        Ok (number_of_batches, epoch_length)
    | None => Ok (number_of_batches, epoch_length)
    end ;;
  if number_of_batches >? 0 then Ok (number_of_batches, epoch_length)
  else Err (AssertionError "Set the paremeters so that number_of_batches>0").

(** x[:n] *)
Definition slice_to {A : Type} (n : Z) (l : list A) : list A :=
  if 0 <=? n then firstn (Z.to_nat n) l
  else firstn (Z.to_nat (Z.of_nat (length l) + n)) l.

(** tf.reshape(x, shape=(-1, width)) of a vector *)
Definition reshape_table {A : Type} (l : list A) (width : Z) : result (list (list A)) :=
  if width <=? 0 then Err ShapeError
  else
    let w := Z.to_nat width in
    if (length l mod w =? 0)%nat then Ok (chunks (length l / w) w l)
    else Err ShapeError.

(** tf.gather(t, indices) along the first axis *)
Definition gather {A : Type} (t : list A) (indices : list Z) : result (list A) :=
  mapM (fun i => if i <? 0 then Err IndexError
                 else match nth_error t (Z.to_nat i) with
                      | Some x => Ok x
                      | None => Err IndexError
                      end)
       indices.

(** tf.reduce_mean of a vector *)
Definition reduce_mean1 (v : list fval) : fval := fdiv (fsum v) (of_nat (length v)).

(** What one run of the graph computes. *)
Record Epoch (params : Type) : Type := {
  e_advantage : tensor;
  e_discounted_reward : tensor;
  e_advantage_normalized : tensor;
  e_number_of_batches : Z;
  e_epoch_length : Z;
  e_indices_of_batches : list (list Z);
  e_ppo_step_rets : list (list fval);
  e_ppo_summaries : list fval;
  e_params : params
}.
Arguments e_advantage {params} e.
Arguments e_discounted_reward {params} e.
Arguments e_advantage_normalized {params} e.
Arguments e_number_of_batches {params} e.
Arguments e_epoch_length {params} e.
Arguments e_indices_of_batches {params} e.
Arguments e_ppo_step_rets {params} e.
Arguments e_ppo_summaries {params} e.
Arguments e_params {params} e.

(** tf.concat(values, axis=0) of vectors; it needs at least one of them. *)
Definition tf_concat {A : Type} (values : list (list A)) : result (list A) :=
  match values with
  | [] => Err ShapeError
  | _ => Ok (concat values)
  end.

(** Lines 157-158: one shuffle of tf.range(epoch_length - 1) per optimization
    epoch. *)
Definition shuffled_permutations
    (shuffle : nat -> list Z -> list Z) (epoch_length optimization_epochs : Z)
    : list (list Z) :=
  map (fun k => shuffle k (zrange 0 (epoch_length - 1)))
      (seq 0 (Z.to_nat optimization_epochs)).

(** Lines 157-163: the table of minibatch indices. *)
Definition index_table
    (shuffle : nat -> list Z -> list Z)
    (epoch_length optimization_epochs number_of_batches optimization_batch_size : Z)
    : result (list (list Z)) :=
  let shuffled_indices := shuffled_permutations shuffle epoch_length optimization_epochs in
  shuffled_indices <- tf_concat shuffled_indices ;;
  let shuffled_indices :=
    slice_to (number_of_batches * optimization_batch_size) shuffled_indices in
  reshape_table shuffled_indices optimization_batch_size.

(** The tensors tf.scan packs, one per loss component, from the accumulator
    after each minibatch. *)
Definition pack_rets (accumulators : list (list fval)) : list (list fval) :=
  map (fun k => map (fun a => nth k a NaN) accumulators) (seq 0 3).

(** Lines 179-180 *)
Definition summaries_of (ppo_step_rets : list (list fval)) (number_of_batches : Z)
    : list fval :=
  map (fun ret => fdiv (reduce_mean1 ret) (of_Z number_of_batches)) ppo_step_rets.

Definition add_lists_elementwise (l1 l2 : list fval) : list fval := map2 fadd l1 l2.

(** indices_of_batches[i, :] *)
Definition table_row (indices_of_batches : list (list Z)) (i : Z) : result (list Z) :=
  match nth_error indices_of_batches (Z.to_nat i) with
  | Some r => Ok r
  | None => Err IndexError
  end.

(** [tf.gather(t, indices) for t in input_tensors] *)
Definition gather_points {obs : Type} (input_tensors : DataPoints obs) (indices : list Z)
    : result (DataPoints obs) :=
  observation <- gather (dp_observation input_tensors) indices ;;
  action <- gather (dp_action input_tensors) indices ;;
  discounted_reward <- gather (dp_discounted_reward input_tensors) indices ;;
  norm_advantage <- gather (dp_norm_advantage input_tensors) indices ;;
  old_pdf <- gather (dp_old_pdf input_tensors) indices ;;
  Ok {| dp_observation := observation; dp_action := action;
        dp_discounted_reward := discounted_reward;
        dp_norm_advantage := norm_advantage; dp_old_pdf := old_pdf |}.

(** The sequential tf.scan over the minibatches: the state is the network's
    variables and the accumulator; the accumulator after each step is kept. *)
Fixpoint scan_batches {S : Type} (body : S * list fval -> Z -> result (S * list fval))
    (state : S * list fval) (batches : list Z) : result (S * list (list fval)) :=
  match batches with
  | [] => Ok (fst state, [])
  | i :: rest =>
      state' <- body state i ;;
      '(final, accumulators) <- scan_batches body state' rest ;;
      Ok (final, snd state' :: accumulators)
  end.

(** Lines 113-115: the rewards after the optional preprocessing. *)
Definition rewards_of {obs : Type} (memory : Memory obs) (hparams : HParams) : tensor :=
  match rewards_preprocessing_fun hparams with
  | Some f => f (m_reward memory)
  | None => m_reward memory
  end.

Section EpochDriver.
Context {obs params : Type} `{Kernels} `{Collaborators obs params}.

Definition scan_body
    (input_tensors : DataPoints obs) (indices_of_batches : list (list Z))
    (hparams : HParams) (action_space_n : Z) (lr : fval)
    (distributional_size : Z) (distributional_subscale : Q)
    (state : params * list fval) (i : Z) : result (params * list fval) :=
  let '(theta, a) := state in
  indices <- table_row indices_of_batches i ;;
  data_points <- gather_points input_tensors indices ;;
  '(theta', losses) <-
    define_ppo_step theta data_points hparams action_space_n lr
                    distributional_size distributional_subscale ;;
  Ok (theta', add_lists_elementwise a losses).

(** Lines 120-128: the value used for the advantage and the value used to
    bootstrap the distributional target.  A value tensor whose rank does
    not fit the mode is rejected. *)
Definition decode_values
    (value_sm : value_tensor) (distributional_size : Z)
    (distributional_subscale distributional_threshold : Q)
    : result (tensor * tensor) :=
  match value_sm with
  | ScalarValue v =>
      if distributional_size >? 1 then Err ShapeError
      else if negb (Qle_bool distributional_threshold 1) then
        (* the decoder runs over the last axis of [v]; its result has rank
           1 and is not used in this mode *)
        _ <- mapM (fun r => distributional_to_value_row
                              r distributional_size distributional_subscale 0) v ;;
        Ok (v, v)
      else Ok (v, v)
  | DistributionalValue value_d =>
      if distributional_size >? 1 then
        value <- _distributional_to_value value_d distributional_size
                   distributional_subscale distributional_threshold ;;
        if negb (Qle_bool distributional_threshold 1) then
          plain_value <- _distributional_to_value value_d distributional_size
                           distributional_subscale 0 ;;
          Ok (value, plain_value)
        else Ok (value, value)
      else Err ShapeError
  end.

(** Lines 108-137: the advantage and the training target of the value
    head. *)
Definition advantage_and_target
    (memory : Memory obs) (hparams : HParams)
    (distributional_size : Z) (distributional_subscale distributional_threshold : Q)
    : result (tensor * tensor) :=
  let reward := rewards_of memory hparams in
  let done := m_done memory in
  '(value, plain_value) <-
    decode_values (m_value_sm memory) distributional_size
                  distributional_subscale distributional_threshold ;;
  advantage <- calculate_generalized_advantage_estimator
                 reward value done (gae_gamma hparams) (gae_lambda hparams) ;;
  discounted_reward <-
    (if distributional_size >? 1 then
       match last_opt plain_value with
       | None => Err IndexError                          (* plain_value[-1] *)
       | Some end_values =>
           discounted_rewards reward done (gae_gamma hparams) end_values
       end
     else Ok (t_add advantage (all_but_last value))) ;;
  Ok (advantage, discounted_reward).

Definition define_ppo_epoch
    (theta : params) (memory : Memory obs) (hparams : HParams)
    (action_space_n batch_size : Z)
    (distributional_size : Z) (distributional_subscale distributional_threshold : Q)
    : result (Epoch params) :=
  '(advantage, discounted_reward) <-
    advantage_and_target memory hparams distributional_size
                         distributional_subscale distributional_threshold ;;
  let advantage_mean := reduce_mean advantage in
  let centered := map (map (fun a => fsub a advantage_mean)) advantage in
  let advantage_variance := reduce_mean (t_mul centered centered) in
  let advantage_normalized :=
    map (map (fun c => fdiv c (fadd (sqrt advantage_variance) (Fin (1 # 100000000)))))
        centered in
  '(number_of_batches, epoch_length) <- batches_and_length hparams batch_size ;;
  let lr := learning_rate_schedule hparams in
  indices_of_batches <-
    index_table random_shuffle epoch_length (optimization_epochs hparams)
                number_of_batches (optimization_batch_size hparams) ;;
  let input_tensors :=
    {| dp_observation := m_observation memory; dp_action := m_action memory;
       dp_discounted_reward := discounted_reward;
       dp_norm_advantage := advantage_normalized; dp_old_pdf := m_old_pdf memory |} in
  '(theta', accumulators) <-
    scan_batches
      (scan_body input_tensors indices_of_batches hparams action_space_n lr
                 distributional_size distributional_subscale)
      (theta, [Fin 0; Fin 0; Fin 0])
      (zrange 0 number_of_batches) ;;
  let ppo_step_rets := pack_rets accumulators in
  let ppo_summaries := summaries_of ppo_step_rets number_of_batches ++ [lr] in
  Ok {| e_advantage := advantage; e_discounted_reward := discounted_reward;
        e_advantage_normalized := advantage_normalized;
        e_number_of_batches := number_of_batches; e_epoch_length := epoch_length;
        e_indices_of_batches := indices_of_batches;
        e_ppo_step_rets := ppo_step_rets; e_ppo_summaries := ppo_summaries;
        e_params := theta' |}.
End EpochDriver.

(** ** A concrete world for running the definitions

    Kernels that are exact where the examples use them: the softmax of equal
    logits is uniform, the log-softmax of a single logit is 0 (no example
    evaluates it on more), and the square root is taken of squares of
    rationals (other arguments are rounded down).  The collaborators are a policy over
    a single action (probability 1, entropy 0) whose value head outputs 0, an
    optimizer that leaves the variables alone and a shuffle that draws the
    identity permutation. *)

Definition uniform_softmax (logits : row) : row :=
  map (fun _ => fdiv (Fin 1) (of_nat (length logits))) logits.

Definition rational_sqrt (x : fval) : fval :=
  match x with
  | Fin q =>
      let q := Qred q in
      if Qnum q <? 0 then NaN
      else Fin (Z.sqrt (Qnum q) # Pos.sqrt (Qden q))
  | PInf => PInf
  | _ => NaN
  end.

#[local] Instance example_kernels : Kernels := {|
  softmax := uniform_softmax;
  log_softmax := fun logits => map (fun _ => Fin 0) logits;
  sqrt := rational_sqrt
|}.

#[local] Instance single_action_world : Collaborators unit unit := {|
  get_policy := fun _ _ _ size observations =>
    (map (fun _ => [Fin 0]) observations,
     map (fun _ => map (fun _ => Fin 0) (zrange 0 (Z.max 1 size))) observations);
  categorical_prob := fun _ _ => Fin 1;
  categorical_entropy := fun _ => Fin 0;
  optimize := fun theta _ _ _ => theta;
  learning_rate_schedule := fun _ => Fin (1 # 1000);
  random_shuffle := fun _ l => l;
  random_shuffle_perm := fun _ l => Permutation_refl l
|}.

Definition example_hparams : HParams := {|
  clipping_coef := 1 # 5;
  value_loss_coef := 1;
  entropy_loss_coef := 1 # 100;
  gae_gamma := 1;
  gae_lambda := 1;
  epoch_length := 3;
  optimization_epochs := 1;
  optimization_batch_size := 1;
  effective_num_agents := None;
  rewards_preprocessing_fun := None;
  policy_network := "feed_forward_categorical_policy"
|}.

(** Three time steps of one agent: reward 1 at every step, no episode end,
    value estimates 0, the single action taken with probability 1. *)
Definition example_memory : Memory unit := {|
  m_observation := [[tt]; [tt]; [tt]];
  m_reward := [[Fin 1]; [Fin 1]; [Fin 1]];
  m_done := [[false]; [false]; [false]];
  m_action := [[0]; [0]; [0]];
  m_old_pdf := [[Fin 1]; [Fin 1]; [Fin 1]];
  m_value_sm := ScalarValue [[Fin 0]; [Fin 0]; [Fin 0]]
|}.

Definition example_epoch : result (Epoch unit) :=
  define_ppo_epoch tt example_memory example_hparams 1 1 1 (1 # 25) 0.

(** The configuration of the spec's example: 129 steps, 4 optimization
    epochs, minibatches of 64, no effective agent count. *)
Definition hparams_129 : HParams := {|
  clipping_coef := 1 # 5;
  value_loss_coef := 1;
  entropy_loss_coef := 1 # 100;
  gae_gamma := 99 # 100;
  gae_lambda := 95 # 100;
  epoch_length := 129;
  optimization_epochs := 4;
  optimization_batch_size := 64;
  effective_num_agents := None;
  rewards_preprocessing_fun := None;
  policy_network := "feed_forward_categorical_policy"
|}.

(** Equality of floats as numbers. *)
Definition feq (x y : fval) : Prop :=
  match x, y with
  | Fin a, Fin b => (a == b)%Q
  | PInf, PInf | NInf, NInf | NaN, NaN => True
  | _, _ => False
  end.

(** The two arguments of the tf.minimum of the surrogate objective. *)
Definition clipped_term (clipping_coef : Q) (ratio norm_advantage : fval) : fval :=
  fmul (clip_by_value ratio (Fin (1 - clipping_coef)) (Fin (1 + clipping_coef)))
       norm_advantage.
Definition ratio_term (ratio norm_advantage : fval) : fval := fmul ratio norm_advantage.

(** Two time steps of one agent with a distribution over two value buckets
    of width 1 (centers -1/2 and 1/2) and equal logits: the plain decoded
    value is 0 at both steps. *)
Definition distributional_hparams : HParams := {|
  clipping_coef := 1 # 5;
  value_loss_coef := 1;
  entropy_loss_coef := 1 # 100;
  gae_gamma := 1;
  gae_lambda := 1;
  epoch_length := 2;
  optimization_epochs := 1;
  optimization_batch_size := 1;
  effective_num_agents := None;
  rewards_preprocessing_fun := None;
  policy_network := "feed_forward_categorical_policy"
|}.

Definition distributional_memory : Memory unit := {|
  m_observation := [[tt]; [tt]];
  m_reward := [[Fin 0]; [Fin 0]];
  m_done := [[false]; [false]];
  m_action := [[0]; [0]];
  m_old_pdf := [[Fin 1]; [Fin 1]];
  m_value_sm := DistributionalValue [[[Fin 0; Fin 0]]; [[Fin 0; Fin 0]]]
|}.


(** Four steps, one optimization epoch, minibatches of two: one minibatch. *)
Definition truncating_hparams : HParams := {|
  clipping_coef := 1 # 5;
  value_loss_coef := 1;
  entropy_loss_coef := 1 # 100;
  gae_gamma := 1;
  gae_lambda := 1;
  epoch_length := 4;
  optimization_epochs := 1;
  optimization_batch_size := 2;
  effective_num_agents := None;
  rewards_preprocessing_fun := None;
  policy_network := "feed_forward_categorical_policy"
|}.

(** Nine steps, two optimization epochs, minibatches of two, two effective
    agents (used with a nominal batch size of 2). *)
Definition effective_agents_hparams : HParams := {|
  clipping_coef := 1 # 5;
  value_loss_coef := 1;
  entropy_loss_coef := 1 # 100;
  gae_gamma := 1;
  gae_lambda := 1;
  epoch_length := 9;
  optimization_epochs := 2;
  optimization_batch_size := 2;
  effective_num_agents := Some 2;
  rewards_preprocessing_fun := None;
  policy_network := "feed_forward_categorical_policy"
|}.

(** The k-th permutation segment of the index table: the entries
    [k * n, (k + 1) * n) of the table read row by row, for n =
    epoch_length - 1. *)
Definition segment (table : list (list Z)) (epoch_length : Z) (k : nat) : list Z :=
  let n := Z.to_nat (epoch_length - 1) in
  firstn n (skipn (k * n) (concat table)).

(** ** Vocabulary of the statements *)

Definition value_time_length (v : value_tensor) : nat :=
  match v with
  | ScalarValue v => length v
  | DistributionalValue v => length v
  end.

(** The trajectory tensors that enter the advantage have time length T. *)
Definition time_length {obs : Type} (memory : Memory obs) (hparams : HParams) (T : nat) : Prop :=
  length (rewards_of memory hparams) = T
  /\ length (m_done memory) = T
  /\ value_time_length (m_value_sm memory) = T.


(** tf.scan over reversed elements, reversed back, is the backward
    recurrence: each result is computed from the result after it. *)
Fixpoint scanr {A E : Type} (fn : A -> E -> A) (elems : list E) (init : A) : list A :=
  match elems with
  | [] => []
  | e :: es => let rest := scanr fn es init in fn (hd init rest) e :: rest
  end.

(** A tensor of shape [T, B]. *)
Definition shape {A : Type} (T B : nat) (t : list (list A)) : Prop :=
  length t = T /\ Forall (fun r => length r = B) t.

Definition finite_row (r : row) : Prop := Forall (fun x => is_finite x = true) r.
Definition finite_tensor (t : tensor) : Prop := Forall finite_row t.

(** t[i, b] *)
Definition entry (t : tensor) (i b : nat) : fval := nth b (nth i t []) NaN.

(** (1 - tf.cast(done, tf.float32))[i, b] *)
Definition not_done_at (done : list (list bool)) (i b : nat) : fval :=
  fsub (Fin 1) (of_bool (nth b (nth i done []) false)).

(** delta[t, b], in the order line 209 computes it:
    (reward_t + (gamma * value_{t+1}) * (1 - done_{t+1})) - value_t *)
Definition td_residual (reward value : tensor) (done : list (list bool)) (gamma : Q)
    (t b : nat) : fval :=
  fsub (fadd (entry reward t b)
             (fmul (fmul (Fin gamma) (entry value (S t) b)) (not_done_at done (S t) b)))
       (entry value t b).

(** The second summand of line 213 at [t, b]:
    ((1 - done_{t+1}) * gae_gamma) * gae_lambda * agg *)
Definition gae_continuation (done : list (list bool)) (gamma lambda : Q)
    (t b : nat) (agg : fval) : fval :=
  fmul (fmul (fmul (not_done_at done (S t) b) (Fin gamma)) (Fin lambda)) agg.

(** The logits of a [T, B] batch of value distributions, each of [size]
    probabilities. *)
Definition bucket_shape `{Kernels} (T B : nat) (size : Z) (value_d : tensor3) : Prop :=
  shape T B value_d
  /\ Forall (Forall (fun logits => length (softmax logits) = Z.to_nat size)) value_d.

(** The three losses of the i-th minibatch of an epoch, computed on their
    own from the epoch's tensors and index table (lines 169-174). *)
Definition minibatch_losses {obs params : Type} `{Kernels} `{Collaborators obs params}
    (theta : params) (memory : Memory obs) (hparams : HParams) (action_space_n : Z)
    (distributional_size : Z) (distributional_subscale : Q)
    (e : Epoch params) (i : Z) : result (list fval) :=
  let input_tensors :=
    {| dp_observation := m_observation memory; dp_action := m_action memory;
       dp_discounted_reward := e_discounted_reward e;
       dp_norm_advantage := e_advantage_normalized e; dp_old_pdf := m_old_pdf memory |} in
  indices <- table_row (e_indices_of_batches e) i ;;
  data_points <- gather_points input_tensors indices ;;
  '(_, losses) <-
    define_ppo_step theta data_points hparams action_space_n
                    (learning_rate_schedule hparams)
                    distributional_size distributional_subscale ;;
  Ok losses.

(** The epoch-mean of one loss component over two minibatches. *)
Definition mean_of_two (l0 l1 : list fval) (component : nat) : fval :=
  fdiv (fadd (nth component l0 NaN) (nth component l1 NaN)) (Fin 2).

(** The tensors the minibatches of an epoch are gathered from (lines
    164-165). *)
Definition epoch_input_tensors {obs params : Type}
    (memory : Memory obs) (e : Epoch params) : DataPoints obs :=
  {| dp_observation := m_observation memory; dp_action := m_action memory;
     dp_discounted_reward := e_discounted_reward e;
     dp_norm_advantage := e_advantage_normalized e; dp_old_pdf := m_old_pdf memory |}.

(** The minibatches of an epoch, in the order of the rows of its index
    table (line 170). *)
Definition epoch_minibatches {obs params : Type}
    (memory : Memory obs) (e : Epoch params) : result (list (DataPoints obs)) :=
  mapM (fun i => indices <- table_row (e_indices_of_batches e) i ;;
                 gather_points (epoch_input_tensors memory e) indices)
       (zrange 0 (e_number_of_batches e)).

(** define_ppo_step run on a list of minibatches one after the other, each
    step on the variables left by the step before; the losses of each step
    and the final variables. *)
Fixpoint run_steps {obs params : Type} `{Kernels} `{Collaborators obs params}
    (theta : params) (batches : list (DataPoints obs)) (hparams : HParams)
    (action_space_n : Z) (lr : fval)
    (distributional_size : Z) (distributional_subscale : Q)
    : result (params * list (list fval)) :=
  match batches with
  | [] => Ok (theta, [])
  | data_points :: rest =>
      '(theta', losses) <-
        define_ppo_step theta data_points hparams action_space_n lr
                        distributional_size distributional_subscale ;;
      '(final, later) <-
        run_steps theta' rest hparams action_space_n lr
                  distributional_size distributional_subscale ;;
      Ok (final, losses :: later)
  end.

(** Three steps, one optimization epoch, minibatches of two: one minibatch. *)
Definition single_batch_hparams : HParams := {|
  clipping_coef := 1 # 5;
  value_loss_coef := 1;
  entropy_loss_coef := 1 # 100;
  gae_gamma := 1;
  gae_lambda := 1;
  epoch_length := 3;
  optimization_epochs := 1;
  optimization_batch_size := 2;
  effective_num_agents := None;
  rewards_preprocessing_fun := None;
  policy_network := "feed_forward_categorical_policy"
|}.

(** * Properties *)

(** ** The number of minibatches *)

Lemma floordiv_nonzero (a b : Z) : b <> 0 -> floordiv a b = Ok (a / b).
Proof.
  intros Hb. unfold floordiv.
  destruct (Z.eqb_spec b 0) as [E | _]; [contradiction | reflexivity].
Qed.

(** C7: number_of_batches is ((epoch_length - 1) * optimization_epochs) //
    optimization_batch_size; with effective_num_agents configured it is then
    multiplied by the nominal batch size and floor-divided by
    effective_num_agents, and epoch_length is floor-divided by
    effective_num_agents; the function returns these two numbers exactly when
    number_of_batches is positive.  For epoch_length 129, 4 optimization
    epochs, minibatches of 64 and no effective_num_agents the result is 8. *)
Theorem number_of_batches_formula :
  (forall (hparams : HParams) (batch_size : Z),
      optimization_batch_size hparams <> 0 ->
      let base := ((epoch_length hparams - 1) * optimization_epochs hparams)
                  / optimization_batch_size hparams in
      match effective_num_agents hparams with
      | None =>
          batches_and_length hparams batch_size =
          if base >? 0 then Ok (base, epoch_length hparams)
          else Err (AssertionError "Set the paremeters so that number_of_batches>0")
      | Some agents =>
          agents <> 0 ->
          batches_and_length hparams batch_size =
          if base * batch_size / agents >? 0
          then Ok (base * batch_size / agents, epoch_length hparams / agents)
          else Err (AssertionError "Set the paremeters so that number_of_batches>0")
      end)
  /\ (forall batch_size, batches_and_length hparams_129 batch_size = Ok (8, 129)).
Proof.
  split.
  - intros hparams batch_size Hobs base.
    unfold batches_and_length.
    rewrite (floordiv_nonzero _ _ Hobs). cbn [bind]. fold base.
    destruct (effective_num_agents hparams) as [agents |].
    + intros Hagents.
      rewrite !(floordiv_nonzero _ _ Hagents). cbn [bind].
      destruct (base * batch_size / agents >? 0); reflexivity.
    + cbn [bind]. destruct (base >? 0); reflexivity.
  - intros batch_size. reflexivity.
Qed.

Lemma number_of_batches_formula_witness :
  batches_and_length hparams_129 16 = Ok (8, 129).
Proof.
  pose proof (proj1 number_of_batches_formula hparams_129 16) as H.
  cbv zeta in H. cbn [effective_num_agents hparams_129] in H.
  rewrite H; [reflexivity | discriminate].
Defined.

(** Closed comparisons of rationals. *)
Ltac qconst := unfold Qle, Qlt; cbn; lia.

(** ** The clipped surrogate objective *)

Lemma flt_Fin (a b : Q) : flt (Fin a) (Fin b) = true <-> (a < b)%Q.
Proof.
  cbn [flt]. rewrite Qlt_alt.
  destruct (a ?= b)%Q; split; intros E; congruence.
Qed.

Lemma flt_Fin_false (a b : Q) : flt (Fin a) (Fin b) = false <-> (b <= a)%Q.
Proof.
  rewrite <- Bool.not_true_iff_false, flt_Fin. split.
  - apply Qnot_lt_le.
  - apply Qle_not_lt.
Qed.

Lemma fmin_Fin_l (a b : Q) : (a < b)%Q -> fmin (Fin a) (Fin b) = Fin a.
Proof. intros L. unfold fmin. apply flt_Fin in L. now rewrite L. Qed.

Lemma fmin_Fin_r (a b : Q) : (b <= a)%Q -> fmin (Fin a) (Fin b) = Fin b.
Proof. intros L. unfold fmin. apply flt_Fin_false in L. now rewrite L. Qed.

(** Clipping a finite ratio gives a finite ratio, equal to the bound it
    crossed. *)
Lemma clip_by_value_Fin (c r : Q) :
  (0 <= c)%Q ->
  exists k : Q,
    clip_by_value (Fin r) (Fin (1 - c)) (Fin (1 + c)) = Fin k
    /\ (1 + c < r -> k == 1 + c)%Q
    /\ (r < 1 - c -> k == 1 - c)%Q.
Proof.
  intros Hc. unfold clip_by_value.
  assert (Hlohi : (1 - c <= 1 + c)%Q) by lra.
  destruct (Qlt_le_dec r (1 + c)) as [Lt | Ge].
  - rewrite (fmin_Fin_l _ _ Lt). unfold fmax.
    destruct (flt (Fin (1 - c)) (Fin r)) eqn:E.
    + exists r. apply flt_Fin in E. repeat split; intros; lra.
    + exists (1 - c)%Q. apply flt_Fin_false in E. repeat split; intros; lra.
  - rewrite (fmin_Fin_r _ _ Ge). unfold fmax.
    destruct (flt (Fin (1 - c)) (Fin (1 + c))) eqn:E.
    + exists (1 + c)%Q. apply flt_Fin in E. repeat split; intros; lra.
    + exists (1 - c)%Q. apply flt_Fin_false in E. repeat split; intros; lra.
Qed.

(** C9 (as amended): with a clipping coefficient c >= 0, the surrogate
    objective min(clipped_ratio * advantage, ratio * advantage) equals the
    clipped term when the ratio is above 1 + c and the advantage is strictly
    positive, and when the ratio is below 1 - c and the advantage is strictly
    negative; it equals the raw ratio term when the ratio is above 1 + c with
    a strictly negative advantage, and when it is below 1 - c with a strictly
    positive advantage. *)
Theorem surrogate_branches (c r a : Q) :
  (0 <= c)%Q ->
  ((1 + c < r)%Q -> (0 < a)%Q ->
   surrogate c (Fin r) (Fin a) = clipped_term c (Fin r) (Fin a))
  /\ ((r < 1 - c)%Q -> (a < 0)%Q ->
      surrogate c (Fin r) (Fin a) = clipped_term c (Fin r) (Fin a))
  /\ ((1 + c < r)%Q -> (a < 0)%Q ->
      surrogate c (Fin r) (Fin a) = ratio_term (Fin r) (Fin a))
  /\ ((r < 1 - c)%Q -> (0 < a)%Q ->
      surrogate c (Fin r) (Fin a) = ratio_term (Fin r) (Fin a)).
Proof.
  intros Hc.
  destruct (clip_by_value_Fin c r Hc) as (k & Ek & Hhi & Hlo).
  unfold surrogate, clipped_term, ratio_term. rewrite Ek. cbn [fmul].
  repeat split; intros Hr Ha.
  - apply fmin_Fin_l. specialize (Hhi Hr). nra.
  - apply fmin_Fin_l. specialize (Hlo Hr). nra.
  - apply fmin_Fin_r. specialize (Hhi Hr). nra.
  - apply fmin_Fin_r. specialize (Hlo Hr). nra.
Qed.

Lemma surrogate_branches_witness :
  surrogate (1 # 5) (Fin 2) (Fin 1) = clipped_term (1 # 5) (Fin 2) (Fin 1)
  /\ surrogate (1 # 5) (Fin 2) (Fin (-1)) = ratio_term (Fin 2) (Fin (-1)).
Proof.
  pose proof (surrogate_branches (1 # 5) 2 1) as H1.
  pose proof (surrogate_branches (1 # 5) 2 (-1)) as H2.
  split.
  - assert (Hc : (0 <= 1 # 5)%Q) by qconst.
    apply (proj1 (H1 Hc)); qconst.
  - assert (Hc : (0 <= 1 # 5)%Q) by qconst.
    apply (proj1 (proj2 (proj2 (H2 Hc)))); qconst.
Defined.

(** C9 as stated fails below the interval: with clipping coefficient 1/5,
    ratio 1/2 and advantage 1 the surrogate is the raw ratio term 1/2, not
    the clipped term 4/5. *)
Lemma surrogate_below_interval_is_raw :
  ~ (forall c r a : Q,
        (r < 1 - c \/ 1 + c < r)%Q -> (0 < a)%Q ->
        feq (surrogate c (Fin r) (Fin a)) (clipped_term c (Fin r) (Fin a))).
Proof.
  intros H.
  specialize (H (1 # 5) (1 # 2) 1%Q).
  assert (L : ((1 # 2) < 1 - (1 # 5) \/ 1 + (1 # 5) < 1 # 2)%Q) by (left; reflexivity).
  specialize (H L eq_refl).
  vm_compute in H. discriminate H.
Qed.

(** ** The bucket centers of the distributional decoder *)

Lemma zrange_length (lo hi : Z) : length (zrange lo hi) = Z.to_nat (hi - lo).
Proof. unfold zrange. now rewrite length_map, length_seq. Qed.

Lemma zrange_nth_error (lo hi i : Z) :
  0 <= i < hi - lo -> nth_error (zrange lo hi) (Z.to_nat i) = Some (lo + i).
Proof.
  intros Hi. unfold zrange.
  rewrite nth_error_map.
  rewrite (nth_error_nth' _ 0%nat) by (rewrite length_seq; lia).
  rewrite seq_nth by lia. cbn. f_equal. lia.
Qed.

Lemma value_range_length (size : Z) (subscale : Q) :
  length (value_range size subscale) = Z.to_nat (2 * (size / 2)).
Proof.
  unfold value_range. rewrite length_map, zrange_length. f_equal. lia.
Qed.

Lemma value_range_nth_error (size : Z) (subscale : Q) (i : Z) :
  0 <= i < 2 * (size / 2) ->
  nth_error (value_range size subscale) (Z.to_nat i)
  = Some ((inject_Z (- (size / 2) + i) + (1 # 2)) * subscale)%Q.
Proof.
  intros Hi. unfold value_range.
  rewrite nth_error_map, zrange_nth_error by lia. reflexivity.
Qed.

Lemma map2_length {A B C : Type} (f : A -> B -> C) (l1 : list A) (l2 : list B) :
  length (map2 f l1 l2) = Nat.min (length l1) (length l2).
Proof.
  revert l2. induction l1 as [| a l1 IH]; intros [| b l2]; cbn; auto.
Qed.

Lemma scan_length {A E : Type} (fn : A -> E -> A) (elems : list E) (init : A) :
  length (scan fn elems init) = length elems.
Proof.
  revert init. induction elems as [| e es IH]; intros init; cbn; auto.
Qed.

Lemma broadcast_mul_same (probs range : row) :
  length probs = length range -> broadcast_mul probs range = Ok (map2 fmul probs range).
Proof.
  intros E. unfold broadcast_mul. now rewrite E, Nat.eqb_refl.
Qed.

Lemma broadcast_mul_mismatch (probs range : row) :
  (3 <= length probs)%nat -> (2 <= length range)%nat ->
  length probs <> length range ->
  broadcast_mul probs range = Err ShapeError.
Proof.
  intros Hp Hr Hne. unfold broadcast_mul.
  apply Nat.eqb_neq in Hne. rewrite Hne.
  destruct range as [| v [| v' range]]; cbn in Hr; try lia.
  destruct probs as [| p [| p' probs]]; cbn in Hp; try lia.
  reflexivity.
Qed.

Section DecoderShapes.
Context `{Kernels}.

(** The probabilities that reach the product with the bucket centers have
    the length of the softmax output. *)
Lemma filtered_length (probs : row) (threshold : Q) (total : fval) :
  length (map (fun p => fdiv p total) (filtered_probs probs threshold)) = length probs.
Proof.
  unfold filtered_probs, cumsum.
  rewrite length_map, map2_length, scan_length. lia.
Qed.

Lemma decoder_row_shape_error (logits : row) (size : Z) (subscale threshold : Q) :
  3 <= size -> Z.odd size = true ->
  length (softmax logits) = Z.to_nat size ->
  distributional_to_value_row logits size subscale threshold = Err ShapeError.
Proof.
  intros Hsize Hodd Hlen.
  assert (Hrange : length (map Fin (value_range size subscale)) = Z.to_nat (size - 1)).
  { rewrite length_map, value_range_length. f_equal.
    apply Z.odd_spec in Hodd as [m ->].
    rewrite <- (Z.div_unique (2 * m + 1) 2 m 1); lia. }
  unfold distributional_to_value_row.
  destruct (Qeq_bool threshold 0).
  - rewrite broadcast_mul_mismatch; [reflexivity | lia | lia | lia].
  - rewrite broadcast_mul_mismatch; [reflexivity | | lia | ];
      rewrite filtered_length; lia.
Qed.

Lemma decoder_row_shape_ok (logits : row) (size : Z) (subscale threshold : Q) :
  Z.even size = true ->
  length (softmax logits) = Z.to_nat size ->
  exists v, distributional_to_value_row logits size subscale threshold = Ok v.
Proof.
  intros Heven Hlen.
  assert (Hrange : length (map Fin (value_range size subscale)) = Z.to_nat size).
  { rewrite length_map, value_range_length. f_equal.
    apply Z.even_spec in Heven as [m ->].
    rewrite <- (Z.div_unique (2 * m) 2 m 0); lia. }
  unfold distributional_to_value_row.
  destruct (Qeq_bool threshold 0).
  - rewrite broadcast_mul_same by lia. cbn [bind]. eauto.
  - rewrite broadcast_mul_same by (rewrite filtered_length; lia).
    cbn [bind]. eauto.
Qed.
End DecoderShapes.

Lemma even_center (m i : Z) (subscale : Q) :
  ((inject_Z (- (2 * m / 2) + i) + (1 # 2)) * subscale
   == (inject_Z i - inject_Z (2 * m) / 2 + (1 # 2)) * subscale)%Q.
Proof.
  rewrite <- (Z.div_unique (2 * m) 2 m 0) by lia.
  rewrite inject_Z_plus, inject_Z_opp, inject_Z_mult.
  change (inject_Z 2) with 2%Q. field.
Qed.

(** C10 (as amended): the decoder builds 2 * (size // 2) bucket centers.
    For an even size K they are the K centers (i - K/2 + 0.5) * subscale and
    the expectation over K probabilities is computed; for an odd size there
    are K - 1 of them, and from K = 3 on the product with K probabilities is
    a shape error. *)
Theorem bucket_centers_by_parity `{Kernels} (size : Z) (subscale : Q) :
  length (value_range size subscale) = Z.to_nat (2 * (size / 2))
  /\ (Z.even size = true ->
      (forall i, 0 <= i < size ->
         exists c, nth_error (value_range size subscale) (Z.to_nat i) = Some c
                   /\ (c == (inject_Z i - inject_Z size / 2 + (1 # 2)) * subscale)%Q)
      /\ (forall logits threshold,
            length (softmax logits) = Z.to_nat size ->
            exists v, distributional_to_value_row logits size subscale threshold = Ok v))
  /\ (Z.odd size = true ->
      length (value_range size subscale) = Z.to_nat (size - 1)
      /\ (3 <= size ->
          forall logits threshold,
            length (softmax logits) = Z.to_nat size ->
            distributional_to_value_row logits size subscale threshold = Err ShapeError)).
Proof.
  split; [apply value_range_length |]. split.
  - intros Heven. split.
    + intros i Hi. pose proof Heven as Hm. apply Z.even_spec in Hm as [m ->].
      eexists. split.
      * apply value_range_nth_error.
        rewrite <- (Z.div_unique (2 * m) 2 m 0); lia.
      * apply even_center.
    + intros logits threshold Hlen. now apply decoder_row_shape_ok.
  - intros Hodd. split.
    + rewrite value_range_length. f_equal.
      pose proof Hodd as Hm. apply Z.odd_spec in Hm as [m ->].
      rewrite <- (Z.div_unique (2 * m + 1) 2 m 1); lia.
    + intros Hsize logits threshold Hlen. now apply decoder_row_shape_error.
Qed.

Lemma bucket_centers_by_parity_witness :
  distributional_to_value_row (H := example_kernels) [Fin 0; Fin 0; Fin 0] 3 (1 # 25) 0
  = Err ShapeError
  /\ exists v,
      distributional_to_value_row (H := example_kernels) [Fin 0; Fin 0] 2 (1 # 25) 0 = Ok v.
Proof.
  split.
  - apply (proj2 (proj2 (proj2 (bucket_centers_by_parity (H := example_kernels)
                                  3 (1 # 25))) eq_refl));
      [lia | reflexivity].
  - apply (proj2 (proj1 (proj2 (bucket_centers_by_parity (H := example_kernels)
                                  2 (1 # 25))) eq_refl)).
    reflexivity.
Defined.

(** C10 as stated fails at size 1: there is no bucket center, the single
    probability is broadcast against the empty vector, and the decoder
    returns the empty sum 0. *)
Lemma decoder_size_one_is_defined :
  ~ (forall (size : Z) (logits : row) (subscale threshold : Q),
        Z.odd size = true ->
        length (softmax (Kernels := example_kernels) logits) = Z.to_nat size ->
        exists e,
          distributional_to_value_row (H := example_kernels) logits size subscale threshold
          = Err e).
Proof.
  intros Hclaim.
  destruct (Hclaim 1 [Fin 0] (1 # 25) 0%Q eq_refl eq_refl) as [e He].
  vm_compute in He. discriminate He.
Qed.

(** ** Lists, scans and rows *)

Lemma nth_map2 {A B C : Type} (f : A -> B -> C) (l1 : list A) (l2 : list B)
    (i : nat) (da : A) (db : B) (dc : C) :
  (i < length l1)%nat -> (i < length l2)%nat ->
  nth i (map2 f l1 l2) dc = f (nth i l1 da) (nth i l2 db).
Proof.
  revert l2 i. induction l1 as [| a l1 IH]; intros [| b l2] [| i] H1 H2;
    cbn in *; try lia; auto.
  apply IH; lia.
Qed.

Lemma last_cons {A : Type} (x : A) (l : list A) (d : A) : last (x :: l) d = last l x.
Proof.
  revert x d. induction l as [| y l IH]; intros x d; [reflexivity |].
  change (last (x :: y :: l) d) with (last (y :: l) d).
  now rewrite !IH.
Qed.

Lemma scan_app {A E : Type} (fn : A -> E -> A) (l1 l2 : list E) (init : A) :
  scan fn (l1 ++ l2) init
  = scan fn l1 init ++ scan fn l2 (last (scan fn l1 init) init).
Proof.
  revert init. induction l1 as [| e l1 IH]; intros init; [reflexivity |].
  cbn [app scan]. rewrite IH, last_cons. reflexivity.
Qed.

Lemma hd_rev {A : Type} (l : list A) (d : A) : hd d (rev l) = last l d.
Proof.
  induction l as [| x l IH] using rev_ind; [reflexivity |].
  now rewrite rev_unit, last_last.
Qed.

Lemma rev_scan_rev {A E : Type} (fn : A -> E -> A) (elems : list E) (init : A) :
  rev (scan fn (rev elems) init) = scanr fn elems init.
Proof.
  induction elems as [| e es IH]; [reflexivity |].
  cbn [rev scanr]. rewrite scan_app. cbn [scan].
  rewrite rev_unit, IH. f_equal.
  now rewrite <- IH, hd_rev.
Qed.

Lemma combine_append {A B : Type} (l1 l1' : list A) (l2 l2' : list B) :
  length l1 = length l2 ->
  combine (l1 ++ l1') (l2 ++ l2') = combine l1 l2 ++ combine l1' l2'.
Proof.
  revert l2. induction l1 as [| a l1 IH]; intros [| b l2] E; cbn in *; try lia; auto.
  f_equal. apply IH. lia.
Qed.

Lemma combine_rev {A B : Type} (l1 : list A) (l2 : list B) :
  length l1 = length l2 -> combine (rev l1) (rev l2) = rev (combine l1 l2).
Proof.
  revert l2. induction l1 as [| a l1 IH]; intros [| b l2] E; cbn in *; try lia; auto.
  rewrite <- IH by lia.
  rewrite combine_append by (rewrite !length_rev; lia). reflexivity.
Qed.

Lemma scanr_length {A E : Type} (fn : A -> E -> A) (elems : list E) (init : A) :
  length (scanr fn elems init) = length elems.
Proof. induction elems as [| e es IH]; cbn; auto. Qed.

(** The backward recurrence, read at one position: the result at [t] is
    computed from the result at [t + 1], or from the initializer at the end. *)
Lemma scanr_nth {A E : Type} (fn : A -> E -> A) (elems : list E) (init : A)
    (t : nat) (d : A) (de : E) :
  (t < length elems)%nat ->
  nth t (scanr fn elems init) d
  = fn (nth (S t) (scanr fn elems init) init) (nth t elems de).
Proof.
  revert t. induction elems as [| e es IH]; intros t Ht; cbn in Ht; [lia |].
  destruct t as [| t].
  - cbn. destruct (scanr fn es init); reflexivity.
  - cbn [scanr nth]. apply IH. lia.
Qed.

Lemma nth_removelast {A : Type} (l : list A) (i : nat) (d : A) :
  (i < length l - 1)%nat -> nth i (removelast l) d = nth i l d.
Proof.
  revert i. induction l as [| x l IH]; intros i Hi; cbn in Hi; [lia |].
  destruct l as [| y l]; [cbn in Hi; lia |].
  change (removelast (x :: y :: l)) with (x :: removelast (y :: l)).
  destruct i as [| i]; [reflexivity |].
  cbn [nth]. apply IH. cbn [length] in *. lia.
Qed.

Lemma length_removelast {A : Type} (l : list A) :
  length (removelast l) = (length l - 1)%nat.
Proof.
  induction l as [| x l IH]; [reflexivity |].
  destruct l as [| y l]; [reflexivity |].
  change (removelast (x :: y :: l)) with (x :: removelast (y :: l)).
  cbn [length] in *. lia.
Qed.

Lemma nth_tl {A : Type} (l : list A) (i : nat) (d : A) : nth i (tl l) d = nth (S i) l d.
Proof. destruct l; [now destruct i | reflexivity]. Qed.

Lemma length_tl {A : Type} (l : list A) : length (tl l) = (length l - 1)%nat.
Proof. destruct l; cbn; lia. Qed.

(** ** Shapes *)

Lemma shape_row {A : Type} (T B : nat) (t : list (list A)) (i : nat) :
  shape T B t -> (i < T)%nat -> length (nth i t []) = B.
Proof.
  intros [HT HB] Hi. rewrite Forall_forall in HB.
  apply HB, nth_In. lia.
Qed.

Lemma shape_map2 {A B C : Type} (f : A -> B -> C) (T W : nat)
    (t1 : list (list A)) (t2 : list (list B)) :
  shape T W t1 -> shape T W t2 -> shape T W (map2 (map2 f) t1 t2).
Proof.
  intros [H1 R1] [H2 R2]. split; [rewrite map2_length; lia |].
  clear H1 H2. revert t2 R2.
  induction R1 as [| r1 t1 Hr1 R1 IH]; intros t2 R2; [constructor |].
  destruct R2 as [| r2 t2 Hr2 R2]; [constructor |].
  cbn [map2]. constructor; [rewrite map2_length; lia | now apply IH].
Qed.

Lemma shape_map {A B : Type} (f : A -> B) (T W : nat) (t : list (list A)) :
  shape T W t -> shape T W (map (map f) t).
Proof.
  intros [HT HR]. split; [now rewrite length_map |].
  apply Forall_map. eapply Forall_impl; [| exact HR].
  intros r Hr. now rewrite length_map.
Qed.

Lemma shape_tl {A : Type} (T W : nat) (t : list (list A)) :
  shape T W t -> shape (T - 1) W (tl t).
Proof.
  intros [HT HR]. split; [now rewrite length_tl, HT |].
  destruct t; [constructor | now inversion HR].
Qed.

Lemma Forall_removelast {A : Type} (P : A -> Prop) (l : list A) :
  Forall P l -> Forall P (removelast l).
Proof.
  induction 1 as [| x l Hx Hl IH]; [constructor |].
  destruct l as [| y l]; [constructor |].
  change (removelast (x :: y :: l)) with (x :: removelast (y :: l)).
  now constructor.
Qed.

Lemma shape_removelast {A : Type} (T W : nat) (t : list (list A)) :
  shape T W t -> shape (T - 1) W (removelast t).
Proof.
  intros [HT HR]. split; [now rewrite length_removelast, HT |].
  now apply Forall_removelast.
Qed.

(** Entries of elementwise results. *)
Lemma nth2_map2 {A B C : Type} (f : A -> B -> C) (T W : nat)
    (t1 : list (list A)) (t2 : list (list B)) (i b : nat) (da : A) (db : B) (dc : C) :
  shape T W t1 -> shape T W t2 -> (i < T)%nat -> (b < W)%nat ->
  nth b (nth i (map2 (map2 f) t1 t2) []) dc
  = f (nth b (nth i t1 []) da) (nth b (nth i t2 []) db).
Proof.
  intros S1 S2 Hi Hb.
  rewrite (nth_map2 (map2 f) t1 t2 i [] [] [])
    by (rewrite ?(proj1 S1), ?(proj1 S2); lia).
  apply nth_map2.
  - now rewrite (shape_row T W t1 i S1 Hi).
  - now rewrite (shape_row T W t2 i S2 Hi).
Qed.

Lemma nth2_map {A B : Type} (f : A -> B) (T W : nat)
    (t : list (list A)) (i b : nat) (da : A) (db : B) :
  shape T W t -> (i < T)%nat -> (b < W)%nat ->
  nth b (nth i (map (map f) t) []) db = f (nth b (nth i t []) da).
Proof.
  intros S1 Hi Hb.
  change (@nil B) with (map f []). rewrite map_nth.
  rewrite (nth_indep _ db (f da)) by (rewrite length_map, (shape_row T W t i S1 Hi); lia).
  apply map_nth.
Qed.

Lemma finite_val (x : fval) : is_finite x = true -> x = Fin (val x).
Proof. destruct x; cbn; congruence. Qed.

Lemma finite_entry (T W : nat) (t : tensor) (i b : nat) :
  shape T W t -> finite_tensor t -> (i < T)%nat -> (b < W)%nat ->
  entry t i b = Fin (val (entry t i b)).
Proof.
  intros S1 F Hi Hb. apply finite_val. unfold entry.
  unfold finite_tensor, finite_row in F. rewrite Forall_forall in F.
  assert (In (nth i t []) t) as Hin by (apply nth_In; rewrite (proj1 S1); lia).
  specialize (F _ Hin). rewrite Forall_forall in F.
  apply F, nth_In. now rewrite (shape_row T W t i S1 Hi).
Qed.

(** ** Checked results, scans and binds *)

Lemma last_opt_nth {A : Type} (l : list A) (d : A) :
  l <> [] -> last_opt l = Some (nth (length l - 1) l d).
Proof.
  induction l as [| x l IH]; [congruence |]. intros _.
  destruct l as [| y l]; [reflexivity |].
  change (last_opt (x :: y :: l)) with (last_opt (y :: l)).
  rewrite IH by discriminate. cbn [length]. f_equal.
  replace (S (S (length l)) - 1)%nat with (S (S (length l) - 1)) by lia.
  reflexivity.
Qed.

Lemma scanr_preserves {A E : Type} (P : A -> Prop) (Q : E -> Prop)
    (fn : A -> E -> A) (elems : list E) (init : A) :
  (forall a e, P a -> Q e -> P (fn a e)) ->
  Forall Q elems -> P init -> Forall P (scanr fn elems init).
Proof.
  intros Hfn He Hinit. induction He as [| e es Hq He IH]; [constructor |].
  cbn [scanr]. constructor; [| exact IH].
  apply Hfn; [| exact Hq]. destruct IH; auto.
Qed.

Lemma check_numerics_finite (t t' : tensor) (message : string) :
  check_numerics t message = Ok t' -> finite_tensor t'.
Proof.
  unfold check_numerics. destruct (forallb (forallb is_finite) t) eqn:E; [| discriminate].
  intros E'. inversion E'. subst t'.
  rewrite forallb_forall in E. apply Forall_forall. intros r Hr.
  specialize (E r Hr). rewrite forallb_forall in E. now apply Forall_forall.
Qed.

Lemma check_numerics_error (t : tensor) (message : string) (e : error) :
  check_numerics t message = Err e -> e = NumericError message.
Proof. unfold check_numerics. destruct (forallb _ t); congruence. Qed.

Lemma check_numerics_rejects (t : tensor) (message : string) (i b : nat) :
  (i < length t)%nat -> (b < length (nth i t []))%nat ->
  is_finite (entry t i b) = false ->
  check_numerics t message = Err (NumericError message).
Proof.
  intros Hi Hb Hbad. unfold check_numerics.
  destruct (forallb (forallb is_finite) t) eqn:E; [| reflexivity].
  rewrite forallb_forall in E.
  specialize (E (nth i t []) (nth_In _ _ Hi)).
  rewrite forallb_forall in E.
  specialize (E (nth b (nth i t []) NaN) (nth_In _ _ Hb)).
  unfold entry in Hbad. congruence.
Qed.

Lemma gae_step_length (gamma lambda : Q) (B : nat) (agg : row) (cur : row * row) :
  length agg = B -> length (fst cur) = B /\ length (snd cur) = B ->
  length (gae_step gamma lambda agg cur) = B.
Proof.
  intros La [Ld Ln]. unfold gae_step, row_add, row_mul, row_scale_r.
  rewrite !map2_length, !length_map. lia.
Qed.

Lemma combine_lengths (B : nat) (l1 l2 : tensor) :
  Forall (fun r => length r = B) l1 -> Forall (fun r => length r = B) l2 ->
  Forall (fun e : row * row => length (fst e) = B /\ length (snd e) = B) (combine l1 l2).
Proof.
  intros F1. revert l2. induction F1 as [| a l1 Ha F1 IH]; intros l2 F2; [constructor |].
  destruct F2 as [| b l2 Hb F2]; [constructor |].
  cbn [combine]. constructor; auto.
Qed.

Lemma bind_ok {A B : Type} (r : result A) (k : A -> result B) (b : B) :
  bind r k = Ok b -> exists a, r = Ok a /\ k a = Ok b.
Proof. destruct r as [a | e]; cbn; [eauto | discriminate]. Qed.

Lemma mapM_length {A B : Type} (f : A -> result B) (l : list A) (l' : list B) :
  mapM f l = Ok l' -> length l' = length l.
Proof.
  revert l'. induction l as [| a l IH]; intros l' E; cbn in E.
  - now inversion E.
  - apply bind_ok in E as (b & _ & E). apply bind_ok in E as (bs & Ebs & E).
    inversion E. cbn. f_equal. now apply IH.
Qed.

Lemma check_numerics_ok (t t' : tensor) (message : string) :
  check_numerics t message = Ok t' -> t' = t.
Proof. unfold check_numerics. destruct (forallb _ t); congruence. Qed.

Lemma gae_length (reward value : tensor) (done : list (list bool)) (gamma lambda : Q)
    (A : tensor) (T : nat) :
  calculate_generalized_advantage_estimator reward value done gamma lambda = Ok A ->
  length reward = T -> length value = T -> length done = T ->
  length A = (T - 1)%nat.
Proof.
  intros E Lr Lv Ld. unfold calculate_generalized_advantage_estimator in E.
  assert (LD : length (gae_delta reward value done gamma) = (T - 1)%nat).
  { unfold gae_delta, t_sub, t_add, t_mul, t_scale, not_done_of, all_but_last.
    rewrite !map2_length, !length_map, !length_removelast, !length_tl. lia. }
  destruct (gae_delta reward value done gamma) as [| delta0 delta]; [discriminate |].
  apply check_numerics_ok in E. subst A.
  rewrite length_rev, scan_length, length_combine, !length_rev, LD.
  unfold not_done_of. rewrite length_map, length_tl. lia.
Qed.

(** ** The generalized advantage estimator *)

Lemma nth_map_any {X Y : Type} (f : X -> Y) (l : list X) (i : nat) (dx : X) (dy : Y) :
  (i < length l)%nat -> nth i (map f l) dy = f (nth i l dx).
Proof.
  intros Hi. rewrite (nth_indep _ dy (f dx)) by (now rewrite length_map).
  apply map_nth.
Qed.

Lemma fadd_Fin_inv (x y : fval) (a : Q) :
  fadd x y = Fin a -> exists p q, x = Fin p /\ y = Fin q /\ a = (p + q)%Q.
Proof.
  destruct x as [p | | |], y as [q | | |]; cbn; intros E; try discriminate E.
  injection E as <-. now exists p, q.
Qed.

Lemma fsub_Fin_inv (x y : fval) (a : Q) :
  fsub x y = Fin a -> exists p q, x = Fin p /\ y = Fin q /\ a = (p + - q)%Q.
Proof.
  destruct x as [p | | |], y as [q | | |]; cbn; intros E; try discriminate E.
  injection E as <-. now exists p, q.
Qed.

Lemma fmul_Fin_inv (x y : fval) (a : Q) :
  fmul x y = Fin a -> exists p q, x = Fin p /\ y = Fin q /\ a = (p * q)%Q.
Proof.
  destruct x as [p | | |], y as [q | | |]; cbn; unfold scale_inf; intros E;
    try discriminate E;
    try (destruct (qsign p); discriminate E);
    try (destruct (qsign q); discriminate E).
  injection E as <-. now exists p, q.
Qed.

Lemma not_done_at_Fin (done : list (list bool)) (i b : nat) :
  not_done_at done i b = Fin (1 + - (if nth b (nth i done []) false then 1 else 0)).
Proof. unfold not_done_at. now destruct (nth b (nth i done []) false). Qed.

(** A finite residual has finite operands. *)
Lemma td_residual_Fin_inv (reward value : tensor) (done : list (list bool)) (gamma : Q)
    (t b : nat) (d : Q) :
  td_residual reward value done gamma t b = Fin d ->
  exists r v' v,
    entry reward t b = Fin r /\ entry value (S t) b = Fin v' /\ entry value t b = Fin v
    /\ d = (r + gamma * v' * (1 + - (if nth b (nth (S t) done []) false then 1 else 0))
            + - v)%Q.
Proof.
  unfold td_residual. rewrite not_done_at_Fin. intros E.
  apply fsub_Fin_inv in E as (x & v & E & Ev & ->).
  apply fadd_Fin_inv in E as (r & y & Er & E & ->).
  apply fmul_Fin_inv in E as (z & n & E & En & ->).
  apply fmul_Fin_inv in E as (g & v' & Eg & Ev' & ->).
  injection Eg as <-. injection En as <-.
  now exists r, v', v.
Qed.

Lemma gae_continuation_Fin_inv (done : list (list bool)) (gamma lambda : Q)
    (t b : nat) (agg : fval) (c : Q) :
  gae_continuation done gamma lambda t b agg = Fin c ->
  exists a,
    agg = Fin a
    /\ c = ((1 + - (if nth b (nth (S t) done []) false then 1 else 0))
            * gamma * lambda * a)%Q.
Proof.
  unfold gae_continuation. rewrite not_done_at_Fin. intros E.
  apply fmul_Fin_inv in E as (x & a & Ex & Ea & ->).
  cbn [fmul] in Ex. injection Ex as <-. now exists a.
Qed.

Lemma check_numerics_cases (t : tensor) (message : string) :
  match check_numerics t message with
  | Ok t' => t' = t /\ finite_tensor t
  | Err e => e = NumericError message /\ ~ finite_tensor t
  end.
Proof.
  destruct (check_numerics t message) as [t' | e] eqn:E.
  - split; [now apply check_numerics_ok in E |].
    pose proof (check_numerics_finite _ _ _ E) as F.
    apply check_numerics_ok in E. now subst t'.
  - split; [now apply check_numerics_error in E |].
    intros F. unfold check_numerics in E.
    replace (forallb (forallb is_finite) t) with true in E; [discriminate E |].
    symmetry. apply forallb_forall. intros r Hr.
    apply forallb_forall. intros x Hx.
    unfold finite_tensor, finite_row in F. rewrite Forall_forall in F.
    specialize (F r Hr). rewrite Forall_forall in F. now apply F.
Qed.

Section GAE.
Variables (reward value : tensor) (done : list (list bool)) (gamma lambda : Q).
Variables (T B : nat).
Hypothesis T_ge_2 : (2 <= T)%nat.
Hypothesis reward_shape : shape T B reward.
Hypothesis value_shape : shape T B value.
Hypothesis done_shape : shape T B done.

Lemma next_not_done_shape : shape (T - 1) B (not_done_of (tl done)).
Proof using done_shape. apply shape_map, shape_tl, done_shape. Qed.

Lemma next_not_done_entry (t b : nat) :
  (t < T - 1)%nat -> (b < B)%nat ->
  entry (not_done_of (tl done)) t b = not_done_at done (S t) b.
Proof using done_shape.
  intros Ht Hb. unfold entry, not_done_of, not_done_row, not_done_at.
  rewrite (nth2_map _ (T - 1) B (tl done) t b false NaN)
    by (auto using shape_tl).
  now rewrite nth_tl.
Qed.

Lemma delta_shape : shape (T - 1) B (gae_delta reward value done gamma).
Proof using reward_shape value_shape done_shape.
  unfold gae_delta, t_sub, t_add, t_mul, t_scale, row_sub, row_add, row_mul,
    row_scale, all_but_last.
  repeat (apply shape_map2 || apply shape_map || apply shape_removelast
          || apply shape_tl || apply next_not_done_shape || assumption).
Qed.

(** delta[t, b] is the residual of step t. *)
Lemma delta_entry (t b : nat) :
  (t < T - 1)%nat -> (b < B)%nat ->
  entry (gae_delta reward value done gamma) t b = td_residual reward value done gamma t b.
Proof using T_ge_2 reward_shape value_shape done_shape.
  intros Ht Hb.
  pose proof next_not_done_shape as SN.
  pose proof (shape_tl _ _ _ value_shape) as Stl.
  pose proof (shape_removelast _ _ _ value_shape) as Srv.
  pose proof (shape_removelast _ _ _ reward_shape) as Srr.
  unfold entry, gae_delta, t_sub, t_add, t_mul, t_scale, row_sub, row_add,
    row_mul, row_scale, all_but_last.
  rewrite (nth2_map2 fsub (T - 1) B _ _ t b NaN NaN NaN); auto;
    [| repeat (assumption || apply shape_map2 || apply shape_map)].
  rewrite (nth2_map2 fadd (T - 1) B _ _ t b NaN NaN NaN); auto;
    [| repeat (assumption || apply shape_map2 || apply shape_map)].
  rewrite (nth2_map2 fmul (T - 1) B _ _ t b NaN NaN NaN); auto;
    [| repeat (assumption || apply shape_map)].
  rewrite (nth2_map (fmul (Fin gamma)) (T - 1) B _ t b NaN NaN); auto.
  rewrite !nth_removelast by (rewrite ?(proj1 reward_shape), ?(proj1 value_shape); lia).
  rewrite nth_tl.
  fold (entry (not_done_of (tl done)) t b).
  rewrite next_not_done_entry by assumption.
  reflexivity.
Qed.

(** The tensor [return_] of lines 212-216, before tf.check_numerics: it has
    the shape [T - 1, B], and each entry is computed from the residual of its
    step and the entry after it, the row after the last one being zeros. *)
Lemma gae_return :
  exists return_ : tensor,
    calculate_generalized_advantage_estimator reward value done gamma lambda
    = check_numerics return_ "return"
    /\ shape (T - 1) B return_
    /\ (forall t b, (t < T - 1)%nat -> (b < B)%nat ->
          entry return_ t b
          = fadd (td_residual reward value done gamma t b)
                 (gae_continuation done gamma lambda t b
                    (if (S t <? T - 1)%nat then entry return_ (S t) b else Fin 0))).
Proof using T_ge_2 reward_shape value_shape done_shape.
  pose proof delta_shape as SD. pose proof next_not_done_shape as SN.
  pose proof delta_entry as HD. pose proof next_not_done_entry as HN.
  unfold calculate_generalized_advantage_estimator.
  destruct (gae_delta reward value done gamma) as [| delta0 delta] eqn:ED.
  { destruct SD as [L _]. cbn in L. lia. }
  set (zeros := map (fun _ : fval => Fin 0) delta0).
  assert (L0 : length delta0 = B) by (destruct SD as [_ RD]; now inversion RD).
  assert (Lz : length zeros = B) by (unfold zeros; now rewrite length_map).
  assert (Hz : forall b, (b < B)%nat -> nth b zeros NaN = Fin 0).
  { intros b Hb. unfold zeros.
    now rewrite (nth_map_any _ _ b NaN NaN) by lia. }
  set (D := delta0 :: delta) in *.
  set (N := not_done_of (tl done)) in *.
  rewrite combine_rev by (rewrite (proj1 SD), (proj1 SN); reflexivity).
  rewrite rev_scan_rev.
  set (A := scanr (gae_step gamma lambda) (combine D N) zeros).
  assert (RA : Forall (fun r => length r = B) A).
  { apply (scanr_preserves (fun r => length r = B)
             (fun e : row * row => length (fst e) = B /\ length (snd e) = B)).
    - intros a e Ha He. now apply gae_step_length.
    - apply combine_lengths; [exact (proj2 SD) | exact (proj2 SN)].
    - exact Lz. }
  assert (LA : length A = (T - 1)%nat).
  { unfold A. rewrite scanr_length, length_combine, (proj1 SD), (proj1 SN). lia. }
  exists A. split; [reflexivity |]. split; [now split |].
  intros t b Ht Hb.
  assert (Lagg : length (nth (S t) A zeros) = B).
  { destruct (Nat.lt_ge_cases (S t) (length A)) as [L | L].
    - rewrite Forall_forall in RA. now apply RA, nth_In.
    - now rewrite (nth_overflow A zeros). }
  assert (Eagg : nth b (nth (S t) A zeros) NaN
                 = if (S t <? T - 1)%nat then entry A (S t) b else Fin 0).
  { destruct (Nat.ltb_spec (S t) (T - 1)) as [L | L].
    - unfold entry. now rewrite (nth_indep A zeros []) by lia.
    - rewrite (nth_overflow A zeros) by lia. now apply Hz. }
  unfold entry at 1. unfold A at 1.
  rewrite (scanr_nth _ _ zeros t [] ([], []))
    by (rewrite length_combine, (proj1 SD), (proj1 SN); lia).
  fold A.
  rewrite combine_nth by (rewrite (proj1 SD), (proj1 SN); reflexivity).
  unfold gae_step, row_add, row_mul, row_scale_r. cbn [fst snd].
  assert (LD : length (nth t D []) = B) by (now apply (shape_row (T - 1) B)).
  assert (LN : length (nth t N []) = B) by (now apply (shape_row (T - 1) B)).
  rewrite (nth_map2 fadd _ _ b NaN NaN NaN)
    by (rewrite ?map2_length, ?length_map; lia).
  rewrite (nth_map2 fmul _ _ b NaN NaN NaN)
    by (rewrite ?length_map; lia).
  rewrite (nth_map_any _ _ b NaN NaN) by (rewrite ?length_map; lia).
  rewrite (nth_map_any _ _ b NaN NaN) by lia.
  fold (entry D t b) (entry N t b).
  rewrite (HD t b Ht Hb), (HN t b Ht Hb), Eagg.
  reflexivity.
Qed.
End GAE.

(** C3 (as amended): for reward, value and done tensors of one shape [T, B]
    with T >= 2, the estimator computes the tensor A of shape [T - 1, B] with
    A_t = delta_t + (1 - done_{t+1}) * gamma * lambda * A_{t+1}, where
    delta_t = reward_t + gamma * value_{t+1} * (1 - done_{t+1}) - value_t and
    the continuation after the last index is 0, so that A_{T-2} = delta_{T-2};
    each operation is the float operation of the code, in the code's order.
    It returns A when every entry of A is finite, and fails with the
    NumericError "return" otherwise. *)
Theorem gae_recurrence_then_check
    (reward value : tensor) (done : list (list bool)) (gamma lambda : Q) (T B : nat) :
  (2 <= T)%nat ->
  shape T B reward -> shape T B value -> shape T B done ->
  exists A : tensor,
    shape (T - 1) B A
    /\ (forall t b, (t < T - 1)%nat -> (b < B)%nat ->
          entry A t b
          = fadd (td_residual reward value done gamma t b)
                 (gae_continuation done gamma lambda t b
                    (if (S t <? T - 1)%nat then entry A (S t) b else Fin 0)))
    /\ (forall b, (b < B)%nat ->
          feq (entry A (T - 2) b) (td_residual reward value done gamma (T - 2) b))
    /\ match calculate_generalized_advantage_estimator reward value done gamma lambda with
       | Ok returned => returned = A /\ finite_tensor A
       | Err e => e = NumericError "return" /\ ~ finite_tensor A
       end.
Proof.
  intros HT Sr Sv Sd.
  destruct (gae_return reward value done gamma lambda T B HT Sr Sv Sd)
    as (A & -> & SA & Hrec).
  exists A. split; [exact SA |]. split; [exact Hrec |].
  split; [| apply check_numerics_cases].
  intros b Hb. rewrite (Hrec (T - 2)%nat b) by lia.
  replace (S (T - 2)) with (T - 1)%nat by lia. rewrite Nat.ltb_irrefl.
  unfold gae_continuation. rewrite not_done_at_Fin. cbn [fmul].
  destruct (td_residual reward value done gamma (T - 2) b) as [d | | |];
    cbn; trivial.
  ring.
Qed.

Lemma gae_recurrence_then_check_witness :
  exists A : tensor,
    shape 2 1 A
    /\ entry A 1 0 = fadd (td_residual [[Fin 1]; [Fin 1]; [Fin 1]] [[Fin 0]; [Fin 0]; [Fin 0]]
                                       [[false]; [false]; [false]] 1 1 0)
                          (gae_continuation [[false]; [false]; [false]] 1 1 1 0 (Fin 0))
    /\ calculate_generalized_advantage_estimator
         [[Fin 1]; [Fin 1]; [Fin 1]] [[Fin 0]; [Fin 0]; [Fin 0]]
         [[false]; [false]; [false]] 1 1 = Ok A.
Proof.
  destruct (gae_recurrence_then_check
              [[Fin 1]; [Fin 1]; [Fin 1]] [[Fin 0]; [Fin 0]; [Fin 0]]
              [[false]; [false]; [false]] 1 1 3 1) as (A & SA & Hrec & _ & Hres).
  - lia.
  - split; [reflexivity | repeat constructor].
  - split; [reflexivity | repeat constructor].
  - split; [reflexivity | repeat constructor].
  - exists A. split; [exact SA |]. split.
    + apply (Hrec 1%nat 0%nat); lia.
    + destruct (calculate_generalized_advantage_estimator
                  [[Fin 1]; [Fin 1]; [Fin 1]] [[Fin 0]; [Fin 0]; [Fin 0]]
                  [[false]; [false]; [false]] 1 1) as [returned | e] eqn:E.
      * destruct Hres as [-> _]. reflexivity.
      * vm_compute in E. discriminate E.
Defined.

(** C3 as stated fails: the estimator does not return a tensor for every
    input of one time length T >= 2.  On a NaN reward (two steps, one agent)
    it fails with the NumericError "return". *)
Lemma gae_returns_no_tensor_on_nan_reward :
  ~ (forall (reward value : tensor) (done : list (list bool)) (gamma lambda : Q) (T B : nat),
        (2 <= T)%nat ->
        shape T B reward -> shape T B value -> shape T B done ->
        exists A : tensor,
          calculate_generalized_advantage_estimator reward value done gamma lambda = Ok A
          /\ length A = (T - 1)%nat).
Proof.
  intros Hclaim.
  destruct (Hclaim [[NaN]; [Fin 1]] [[Fin 0]; [Fin 0]] [[false]; [false]] 1%Q 1%Q 2%nat 1%nat)
    as (A & E & _).
  - lia.
  - split; [reflexivity | repeat constructor].
  - split; [reflexivity | repeat constructor].
  - split; [reflexivity | repeat constructor].
  - vm_compute in E. discriminate E.
Qed.

(** ** Time lengths of the advantage and of the training target *)

Lemma discounted_rewards_length (reward : tensor) (done : list (list bool)) (gamma : Q)
    (end_values : row) (R : tensor) (T : nat) :
  discounted_rewards reward done gamma end_values = Ok R ->
  length reward = T -> length done = T ->
  length R = T.
Proof.
  intros E Lr Ld. unfold discounted_rewards in E.
  destruct (last_opt (not_done_of done)); [| discriminate].
  apply check_numerics_ok in E. subst R.
  unfold scan_reverse, t_mul, not_done_of.
  rewrite length_rev, scan_length, length_rev, map2_length, length_map. lia.
Qed.

Lemma decode_values_length `{Kernels} (value_sm : value_tensor) (size : Z)
    (subscale threshold : Q) (value plain_value : tensor) :
  decode_values value_sm size subscale threshold = Ok (value, plain_value) ->
  length value = value_time_length value_sm.
Proof.
  unfold decode_values. destruct value_sm as [v | v]; cbn [value_time_length].
  - destruct (size >? 1); [discriminate |].
    destruct (negb (Qle_bool threshold 1)).
    + intros E. apply bind_ok in E as (_ & _ & E). now inversion E.
    + intros E. now inversion E.
  - destruct (size >? 1); [| discriminate].
    intros E. apply bind_ok in E as (value' & Ev & E).
    apply mapM_length in Ev.
    destruct (negb (Qle_bool threshold 1)).
    + apply bind_ok in E as (p & _ & E). inversion E. now subst.
    + inversion E. now subst.
Qed.

(** C2 (as amended): when the advantage and the target are produced from
    tensors of time length T = epoch_length, the advantage has time length
    epoch_length - 1 in both modes; the training target has time length
    epoch_length - 1 in the scalar mode and epoch_length in the
    distributional mode. *)
Theorem advantage_and_target_lengths {obs : Type} `{Kernels}
    (memory : Memory obs) (hparams : HParams)
    (distributional_size : Z) (distributional_subscale distributional_threshold : Q)
    (advantage discounted_reward : tensor) (T : nat) :
  advantage_and_target memory hparams distributional_size
                       distributional_subscale distributional_threshold
  = Ok (advantage, discounted_reward) ->
  time_length memory hparams T ->
  Z.of_nat T = epoch_length hparams ->
  Z.of_nat (length advantage) = epoch_length hparams - 1
  /\ Z.of_nat (length discounted_reward)
     = if distributional_size >? 1 then epoch_length hparams
       else epoch_length hparams - 1.
Proof.
  intros E (Lr & Ld & Lv) HT. unfold advantage_and_target in E.
  apply bind_ok in E as ([value plain_value] & Edec & E).
  apply bind_ok in E as (adv & Egae & E).
  apply bind_ok in E as (dr & Edr & E).
  inversion E; subst adv dr; clear E.
  pose proof (decode_values_length _ _ _ _ _ _ Edec) as Lvalue.
  pose proof (gae_length _ _ _ _ _ _ T Egae Lr (eq_trans Lvalue Lv) Ld) as LA.
  assert (HT1 : (1 <= T)%nat).
  { unfold calculate_generalized_advantage_estimator in Egae.
    destruct (gae_delta (rewards_of memory hparams) value (m_done memory)
                        (gae_gamma hparams)) eqn:ED; [discriminate |].
    apply (f_equal (@length _)) in ED.
    unfold gae_delta, t_sub, t_add in ED.
    rewrite !map2_length in ED. unfold all_but_last in ED.
    rewrite !length_removelast in ED. cbn [length] in ED. lia. }
  split; [lia |].
  destruct (distributional_size >? 1).
  - destruct (last_opt plain_value); [| discriminate].
    apply (discounted_rewards_length _ _ _ _ _ T) in Edr; auto. lia.
  - inversion Edr. unfold t_add, all_but_last.
    rewrite map2_length, length_removelast. lia.
Qed.

Lemma advantage_and_target_lengths_witness :
  exists advantage discounted_reward,
    advantage_and_target (H := example_kernels) example_memory example_hparams 1 (1 # 25) 0
    = Ok (advantage, discounted_reward)
    /\ Z.of_nat (length advantage) = 2
    /\ Z.of_nat (length discounted_reward) = 2.
Proof.
  exists [[Fin 2]; [Fin 1]], [[Fin 2]; [Fin 1]].
  split; [reflexivity |].
  apply (advantage_and_target_lengths (H := example_kernels)
           example_memory example_hparams 1 (1 # 25) 0 _ _ 3).
  - reflexivity.
  - repeat split.
  - reflexivity.
Defined.

(** C2 as stated fails in the distributional mode: with two time steps
    (epoch_length 2) the advantage has one row and the target has two. *)
Lemma distributional_target_keeps_every_step :
  match advantage_and_target (H := example_kernels)
          distributional_memory distributional_hparams 2 1 0 with
  | Ok (advantage, discounted_reward) =>
      time_length distributional_memory distributional_hparams
                  (Z.to_nat (epoch_length distributional_hparams))
      /\ Z.of_nat (length advantage) = epoch_length distributional_hparams - 1
      /\ Z.of_nat (length discounted_reward) <> epoch_length distributional_hparams - 1
  | Err _ => False
  end.
Proof. vm_compute. repeat split; discriminate. Qed.

(** ** An empty probability mass after the threshold filter *)

Lemma feq_zero_num (p : fval) : feq p (Fin 0) -> exists q, p = Fin q /\ Qnum q = 0.
Proof.
  destruct p as [q | | |]; cbn; try contradiction.
  intros E. exists q. split; [reflexivity |].
  unfold Qeq in E. cbn in E. lia.
Qed.

Lemma fold_fadd_zero (l : row) (acc : Q) :
  Forall (fun p => feq p (Fin 0)) l -> Qnum acc = 0 ->
  exists q, fold_left fadd l (Fin acc) = Fin q /\ Qnum q = 0.
Proof.
  intros Hl. revert acc. induction Hl as [| p l Hp Hl IH]; intros acc Hacc.
  - exists acc. auto.
  - destruct (feq_zero_num p Hp) as (a & -> & Ha).
    cbn [fold_left fadd]. apply IH. cbn. rewrite Hacc, Ha. lia.
Qed.

Lemma fold_fadd_nan (l : row) : fold_left fadd l NaN = NaN.
Proof. induction l as [| x l IH]; [reflexivity | exact IH]. Qed.

Lemma fsum_nan_head (l : row) : fsum (NaN :: l) = NaN.
Proof. unfold fsum. cbn [fold_left fadd]. apply fold_fadd_nan. Qed.

(** Dividing an all-zero row by its sum gives NaN everywhere. *)
Lemma renormalize_zero (l : row) (total : Q) :
  Forall (fun p => feq p (Fin 0)) l -> Qnum total = 0 ->
  map (fun p => fdiv p (Fin total)) l = map (fun _ => NaN) l.
Proof.
  intros Hl Ht. induction Hl as [| p l Hp Hl IH]; [reflexivity |].
  cbn [map]. rewrite IH. f_equal.
  destruct (feq_zero_num p Hp) as (a & -> & Ha).
  cbn [fdiv]. unfold qsign. now rewrite Ht, Ha.
Qed.

Lemma map2_nan (l range : row) :
  map2 fmul (map (fun _ => NaN) l) range = map (fun _ => NaN) (map2 fmul l range).
Proof.
  revert range. induction l as [| p l IH]; intros [| c range]; cbn; auto.
  now rewrite IH.
Qed.

(** C5 (as amended): when the threshold is not 0, the size is even and
    positive, and every probability left by the threshold filter is zero for
    some leading index, the decoder does not fail: it returns NaN for that
    index, the result of the division 0/0 of the renormalization. *)
Theorem decoder_zero_mass_is_nan `{Kernels}
    (logits : row) (size : Z) (subscale threshold : Q) :
  Qeq_bool threshold 0 = false ->
  0 < size -> Z.even size = true ->
  length (softmax logits) = Z.to_nat size ->
  Forall (fun p => feq p (Fin 0)) (filtered_probs (softmax logits) threshold) ->
  distributional_to_value_row logits size subscale threshold = Ok NaN.
Proof.
  intros Hthr Hpos Heven Hlen Hzero.
  unfold distributional_to_value_row. rewrite Hthr.
  destruct (fold_fadd_zero _ 0%Q Hzero eq_refl) as (total & Etotal & Htotal).
  fold (fsum (filtered_probs (softmax logits) threshold)) in Etotal.
  rewrite Etotal, (renormalize_zero _ _ Hzero Htotal).
  assert (Lf : length (filtered_probs (softmax logits) threshold) = Z.to_nat size).
  { unfold filtered_probs, cumsum. rewrite map2_length, scan_length. lia. }
  assert (Lr : length (map Fin (value_range size subscale)) = Z.to_nat size).
  { rewrite length_map, value_range_length. f_equal.
    apply Z.even_spec in Heven as [m ->].
    rewrite <- (Z.div_unique (2 * m) 2 m 0); lia. }
  rewrite broadcast_mul_same by (rewrite length_map; lia).
  cbn [bind]. f_equal. rewrite map2_nan.
  destruct (map2 fmul (filtered_probs (softmax logits) threshold)
                 (map Fin (value_range size subscale))) as [| x l] eqn:E.
  - apply (f_equal (@length _)) in E. rewrite map2_length in E. cbn in E. lia.
  - cbn [map]. apply fsum_nan_head.
Qed.

Lemma decoder_zero_mass_is_nan_witness :
  distributional_to_value_row (H := example_kernels) [Fin 0; Fin 0] 2 (1 # 25) 2 = Ok NaN.
Proof.
  apply (decoder_zero_mass_is_nan (H := example_kernels)).
  - reflexivity.
  - reflexivity.
  - reflexivity.
  - reflexivity.
  - vm_compute. repeat constructor.
Defined.

(** C5 as stated fails: with two equal logits and threshold 2 both
    probabilities are filtered out, and the decoder returns NaN instead of
    failing. *)
Lemma decoder_returns_nan_unguarded :
  ~ (forall (logits : row) (size : Z) (subscale threshold : Q),
        (0 < threshold)%Q ->
        Forall (fun p => feq p (Fin 0))
               (filtered_probs (softmax (Kernels := example_kernels) logits) threshold) ->
        exists message,
          distributional_to_value_row (H := example_kernels) logits size subscale threshold
          = Err (NumericError message)).
Proof.
  intros Hclaim.
  destruct (Hclaim [Fin 0; Fin 0] 2 (1 # 25) 2%Q eq_refl) as [message E].
  - vm_compute. repeat constructor.
  - vm_compute in E. discriminate E.
Qed.

(** ** The bootstrap value of the distributional target *)

Lemma mapM_total {A B : Type} (f : A -> result B) (l : list A) :
  Forall (fun a => exists b, f a = Ok b) l -> exists l', mapM f l = Ok l'.
Proof.
  induction 1 as [| a l [b Eb] _ [l' El]]; [now exists [] |].
  exists (b :: l'). cbn [mapM]. now rewrite Eb, El.
Qed.

Lemma mapM_nth {A B : Type} (f : A -> result B) (l : list A) (l' : list B)
    (i : nat) (da : A) (db : B) :
  mapM f l = Ok l' -> (i < length l)%nat -> f (nth i l da) = Ok (nth i l' db).
Proof.
  revert l' i. induction l as [| a l IH]; intros l' i E Hi; [cbn in Hi; lia |].
  cbn [mapM] in E.
  apply bind_ok in E as (b & Eb & E). apply bind_ok in E as (bs & Ebs & E).
  injection E as <-.
  destruct i as [| i]; cbn [nth]; [exact Eb |].
  apply IH; [exact Ebs | cbn in Hi; lia].
Qed.

(** Distributions of [size] buckets, with [size] even, are all decoded: the
    decoded tensor has the leading shape of the logits, and each entry is the
    decoded value of its distribution. *)
Lemma decoded_entries `{Kernels} (value_d : tensor3) (size : Z) (subscale threshold : Q)
    (T B : nat) :
  Z.even size = true -> bucket_shape T B size value_d ->
  exists value : tensor,
    _distributional_to_value value_d size subscale threshold = Ok value
    /\ shape T B value
    /\ (forall t b, (t < T)%nat -> (b < B)%nat ->
          distributional_to_value_row (nth b (nth t value_d []) []) size subscale threshold
          = Ok (entry value t b)).
Proof.
  intros Heven [[LT RB] Hsize]. unfold _distributional_to_value.
  set (decode := fun logits => distributional_to_value_row logits size subscale threshold).
  destruct (mapM_total (mapM decode) value_d) as [value Evalue].
  { rewrite Forall_forall in Hsize. apply Forall_forall. intros r Hr.
    apply mapM_total. specialize (Hsize r Hr). rewrite Forall_forall in Hsize.
    apply Forall_forall. intros logits Hl.
    now apply decoder_row_shape_ok; [| apply Hsize]. }
  exists value. split; [exact Evalue |].
  pose proof (mapM_length _ _ _ Evalue) as Lvalue.
  assert (Hrow : forall t, (t < T)%nat ->
            mapM decode (nth t value_d []) = Ok (nth t value [])).
  { intros t Ht. apply (mapM_nth _ _ _ t [] [] Evalue). lia. }
  assert (Lrow : forall t, (t < T)%nat -> length (nth t value []) = B).
  { intros t Ht. rewrite (mapM_length _ _ _ (Hrow t Ht)).
    now apply (shape_row T B). }
  split.
  - split; [lia |]. apply Forall_forall. intros r Hr.
    destruct (In_nth value r [] Hr) as (t & Ht & <-). apply Lrow. lia.
  - intros t b Ht Hb. unfold entry.
    apply (mapM_nth _ _ _ b [] NaN (Hrow t Ht)).
    rewrite (shape_row T B value_d t); [exact Hb | now split | exact Ht].
Qed.

(** A distribution without probability mass after the threshold filter is
    decoded to NaN. *)
Lemma zero_mass_row_decodes_to_nan `{Kernels}
    (logits : row) (size : Z) (subscale threshold : Q) :
  Qeq_bool threshold 0 = false ->
  0 < size -> Z.even size = true ->
  length (softmax logits) = Z.to_nat size ->
  Forall (fun p => feq p (Fin 0)) (filtered_probs (softmax logits) threshold) ->
  distributional_to_value_row logits size subscale threshold = Ok NaN.
Proof.
  intros Hthr Hpos Heven Hlen Hzero.
  unfold distributional_to_value_row. rewrite Hthr.
  destruct (fold_fadd_zero _ 0%Q Hzero eq_refl) as (total & Etotal & Htotal).
  fold (fsum (filtered_probs (softmax logits) threshold)) in Etotal.
  rewrite Etotal, (renormalize_zero _ _ Hzero Htotal).
  assert (Lf : length (filtered_probs (softmax logits) threshold) = Z.to_nat size).
  { unfold filtered_probs, cumsum. rewrite map2_length, scan_length. lia. }
  assert (Lr : length (map Fin (value_range size subscale)) = Z.to_nat size).
  { rewrite length_map, value_range_length. f_equal.
    apply Z.even_spec in Heven as [m ->].
    rewrite <- (Z.div_unique (2 * m) 2 m 0); lia. }
  rewrite broadcast_mul_same by (rewrite length_map; lia).
  cbn [bind]. f_equal. rewrite map2_nan.
  destruct (map2 fmul (filtered_probs (softmax logits) threshold)
                 (map Fin (value_range size subscale))) as [| x l] eqn:E.
  - apply (f_equal (@length _)) in E. rewrite map2_length in E. cbn in E. lia.
  - cbn [map]. apply fsum_nan_head.
Qed.

(** Cumulative probabilities that all stay below the threshold leave no
    probability mass. *)
Lemma filtered_probs_below (probs : row) (threshold : Q) :
  Forall (fun a => flt a (Fin threshold) = true) (cumsum probs) ->
  Forall (fun p => feq p (Fin 0)) (filtered_probs probs threshold).
Proof.
  unfold filtered_probs. generalize (cumsum probs) as acc.
  intros acc Hacc. revert probs.
  induction Hacc as [| a acc Ha Hacc IH]; intros [| p probs]; cbn [map2];
    try constructor.
  - rewrite Ha. cbn. reflexivity.
  - apply IH.
Qed.

Lemma fsub_nan_r (x : fval) : fsub x NaN = NaN.
Proof. now destruct x. Qed.

(** A NaN value before the last step reaches the advantage, whose check
    fails. *)
Lemma gae_rejects_nan_value
    (reward value : tensor) (done : list (list bool)) (gamma lambda : Q)
    (T B t b : nat) :
  (2 <= T)%nat ->
  shape T B reward -> shape T B value -> shape T B done ->
  (t < T - 1)%nat -> (b < B)%nat ->
  entry value t b = NaN ->
  calculate_generalized_advantage_estimator reward value done gamma lambda
  = Err (NumericError "return").
Proof.
  intros HT Sr Sv Sd Ht Hb Hnan.
  destruct (gae_return reward value done gamma lambda T B HT Sr Sv Sd)
    as (R & -> & SR & Hrec).
  apply (check_numerics_rejects R "return" t b).
  - rewrite (proj1 SR). exact Ht.
  - now rewrite (shape_row (T - 1) B R t SR Ht).
  - rewrite (Hrec t b Ht Hb). unfold td_residual.
    rewrite Hnan, fsub_nan_r. reflexivity.
Qed.

(** C4 (as amended): in a distributional configuration
    (distributional_size > 1) the value that enters the advantage is decoded
    at distributional_threshold; the bootstrap series is the value decoded at
    threshold 0 only when distributional_threshold > 1, and is the
    thresholded value itself otherwise.  For a threshold of at most 1 a
    produced training target is discounted_rewards seeded with the last time
    step of the thresholded value, not of the plain one.  When every
    cumulative probability of some distribution before the last step is below
    the threshold (as for a threshold above 1), the thresholded value is NaN
    there and the advantage fails with the NumericError "return", so that no
    target is produced. *)
Theorem distributional_bootstrap_value {obs : Type} `{Kernels}
    (memory : Memory obs) (hparams : HParams)
    (distributional_size : Z) (distributional_subscale distributional_threshold : Q)
    (value_d : tensor3) :
  1 < distributional_size ->
  m_value_sm memory = DistributionalValue value_d ->
  (forall value plain_value : tensor,
      decode_values (m_value_sm memory) distributional_size
                    distributional_subscale distributional_threshold
      = Ok (value, plain_value) ->
      _distributional_to_value value_d distributional_size distributional_subscale
                               distributional_threshold = Ok value
      /\ (if Qle_bool distributional_threshold 1 then plain_value = value
          else _distributional_to_value value_d distributional_size
                                        distributional_subscale 0 = Ok plain_value))
  /\ (forall advantage discounted_reward : tensor,
        (distributional_threshold <= 1)%Q ->
        advantage_and_target memory hparams distributional_size
                             distributional_subscale distributional_threshold
        = Ok (advantage, discounted_reward) ->
        exists (value : tensor) (end_values : row),
          _distributional_to_value value_d distributional_size distributional_subscale
                                   distributional_threshold = Ok value
          /\ last_opt value = Some end_values
          /\ discounted_rewards (rewards_of memory hparams) (m_done memory)
                                (gae_gamma hparams) end_values
             = Ok discounted_reward)
  /\ (forall T B t b : nat,
        (2 <= T)%nat ->
        shape T B (rewards_of memory hparams) -> shape T B (m_done memory) ->
        bucket_shape T B distributional_size value_d ->
        Z.even distributional_size = true ->
        Qeq_bool distributional_threshold 0 = false ->
        (t < T - 1)%nat -> (b < B)%nat ->
        Forall (fun a => flt a (Fin distributional_threshold) = true)
               (cumsum (softmax (nth b (nth t value_d []) []))) ->
        advantage_and_target memory hparams distributional_size
                             distributional_subscale distributional_threshold
        = Err (NumericError "return")).
Proof.
  intros Hsize Hsm.
  assert (Hgt : (distributional_size >? 1) = true) by (now apply Z.gtb_lt).
  assert (Hdecode : forall value plain_value : tensor,
            decode_values (m_value_sm memory) distributional_size
                          distributional_subscale distributional_threshold
            = Ok (value, plain_value) ->
            _distributional_to_value value_d distributional_size distributional_subscale
                                     distributional_threshold = Ok value
            /\ (if Qle_bool distributional_threshold 1 then plain_value = value
                else _distributional_to_value value_d distributional_size
                                              distributional_subscale 0 = Ok plain_value)).
  { intros value plain_value E. unfold decode_values in E. rewrite Hsm, Hgt in E.
    apply bind_ok in E as (value' & Ev & E).
    destruct (Qle_bool distributional_threshold 1); cbn [negb] in E.
    - injection E as <- <-. now split.
    - apply bind_ok in E as (plain' & Ep & E). injection E as <- <-. now split. }
  split; [exact Hdecode |]. split.
  - intros advantage discounted_reward Hthr E. unfold advantage_and_target in E.
    apply bind_ok in E as ([value plain_value] & Edec & E).
    apply bind_ok in E as (adv & _ & E).
    apply bind_ok in E as (dr & Edr & E).
    injection E as _ <-. rewrite Hgt in Edr.
    destruct (Hdecode value plain_value Edec) as [Ev Ep].
    apply Qle_bool_iff in Hthr. rewrite Hthr in Ep. subst plain_value.
    destruct (last_opt value) as [end_values |] eqn:Elast; [| discriminate Edr].
    now exists value, end_values.
  - intros T B t b HT Sr Sd Sb Heven Hthr Ht Hb Hbelow.
    destruct (decoded_entries value_d distributional_size distributional_subscale
                distributional_threshold T B Heven Sb) as (value & Ev & Sv & Hentry).
    assert (Hnan : entry value t b = NaN).
    { assert (Ht' : (t < T)%nat) by lia.
      pose proof (Hentry t b Ht' Hb) as E.
      rewrite zero_mass_row_decodes_to_nan in E.
      - now injection E as <-.
      - exact Hthr.
      - lia.
      - exact Heven.
      - destruct Sb as [Sd3 Hrows]. rewrite Forall_forall in Hrows.
        assert (Hin : In (nth t value_d []) value_d)
          by (apply nth_In; rewrite (proj1 Sd3); exact Ht').
        specialize (Hrows _ Hin). rewrite Forall_forall in Hrows.
        apply Hrows, nth_In. rewrite (shape_row T B value_d t Sd3 Ht'). exact Hb.
      - now apply filtered_probs_below. }
    pose proof (gae_rejects_nan_value (rewards_of memory hparams) value (m_done memory)
                  (gae_gamma hparams) (gae_lambda hparams) T B t b
                  HT Sr Sv Sd Ht Hb Hnan) as Egae.
    unfold advantage_and_target, decode_values. rewrite Hsm, Hgt, Ev. cbn [bind].
    destruct (negb (Qle_bool distributional_threshold 1)).
    + destruct (decoded_entries value_d distributional_size distributional_subscale
                  0 T B Heven Sb) as (plain_value & -> & _).
      cbn [bind]. now rewrite Egae.
    + cbn [bind]. now rewrite Egae.
Qed.

Lemma distributional_bootstrap_value_witness :
  (exists value plain_value : tensor,
      decode_values (H := example_kernels) (m_value_sm distributional_memory) 2 1 2
      = Ok (value, plain_value)
      /\ _distributional_to_value (H := example_kernels)
           [[[Fin 0; Fin 0]]; [[Fin 0; Fin 0]]] 2 1 2 = Ok value
      /\ _distributional_to_value (H := example_kernels)
           [[[Fin 0; Fin 0]]; [[Fin 0; Fin 0]]] 2 1 0 = Ok plain_value)
  /\ advantage_and_target (H := example_kernels)
       distributional_memory distributional_hparams 2 1 2
     = Err (NumericError "return")
  /\ (exists (advantage discounted_reward value : tensor) (end_values : row),
        advantage_and_target (H := example_kernels)
          distributional_memory distributional_hparams 2 1 (3 # 4)
        = Ok (advantage, discounted_reward)
        /\ _distributional_to_value (H := example_kernels)
             [[[Fin 0; Fin 0]]; [[Fin 0; Fin 0]]] 2 1 (3 # 4) = Ok value
        /\ last_opt value = Some end_values
        /\ discounted_rewards (rewards_of distributional_memory distributional_hparams)
                              (m_done distributional_memory) 1 end_values
           = Ok discounted_reward).
Proof.
  pose proof (distributional_bootstrap_value (H := example_kernels)
                distributional_memory distributional_hparams 2 1 2
                [[[Fin 0; Fin 0]]; [[Fin 0; Fin 0]]] eq_refl eq_refl)
    as (Hdecode & _ & Hfail).
  pose proof (distributional_bootstrap_value (H := example_kernels)
                distributional_memory distributional_hparams 2 1 (3 # 4)
                [[[Fin 0; Fin 0]]; [[Fin 0; Fin 0]]] eq_refl eq_refl)
    as (_ & Hseed & _).
  split; [| split].
  - destruct (decode_values (H := example_kernels) (m_value_sm distributional_memory) 2 1 2)
      as [[value plain_value] | e] eqn:E; [| vm_compute in E; discriminate E].
    exists value, plain_value. split; [reflexivity |].
    exact (Hdecode value plain_value eq_refl).
  - apply (Hfail 2%nat 1%nat 0%nat 0%nat).
    + lia.
    + split; [reflexivity | repeat constructor].
    + split; [reflexivity | repeat constructor].
    + split; [split; [reflexivity | repeat constructor] | repeat constructor].
    + reflexivity.
    + reflexivity.
    + lia.
    + lia.
    + vm_compute. repeat constructor.
  - destruct (advantage_and_target (H := example_kernels)
                distributional_memory distributional_hparams 2 1 (3 # 4))
      as [[advantage discounted_reward] | e] eqn:E; [| vm_compute in E; discriminate E].
    destruct (Hseed advantage discounted_reward) as (value & end_values & H1 & H2 & H3).
    + qconst.
    + reflexivity.
    + exists advantage, discounted_reward, value, end_values. repeat split; assumption.
Defined.

(** C4 as stated fails for a threshold in (0, 1]: with threshold 3/4 the
    target is seeded with the thresholded value 1/2 of the last step, and
    differs from the target seeded with the plain value 0. *)
Lemma thresholded_value_seeds_the_target :
  exists advantage discounted_reward plain_value end_values plain_target,
    advantage_and_target (H := example_kernels)
      distributional_memory distributional_hparams 2 1 (3 # 4)
    = Ok (advantage, discounted_reward)
    /\ _distributional_to_value (H := example_kernels)
         [[[Fin 0; Fin 0]]; [[Fin 0; Fin 0]]] 2 1 0 = Ok plain_value
    /\ last_opt plain_value = Some end_values
    /\ discounted_rewards (m_reward distributional_memory) (m_done distributional_memory)
                          1 end_values = Ok plain_target
    /\ ~ feq (entry discounted_reward 1 0) (entry plain_target 1 0).
Proof.
  do 5 eexists.
  split; [vm_compute; reflexivity |].
  split; [vm_compute; reflexivity |].
  split; [reflexivity |].
  split; [vm_compute; reflexivity |].
  vm_compute. discriminate.
Qed.

(** ** The losses returned by one minibatch step *)




(** ** The table of minibatch indices *)

Lemma chunks_length {A : Type} (n w : nat) (l : list A) : length (chunks n w l) = n.
Proof. revert l. induction n as [| n IH]; intros l; cbn; auto. Qed.

Lemma chunks_rows {A : Type} (n w : nat) (l : list A) :
  (n * w <= length l)%nat -> Forall (fun r => length r = w) (chunks n w l).
Proof.
  revert l. induction n as [| n IH]; intros l Hl; cbn [chunks]; [constructor |].
  constructor.
  - rewrite length_firstn. lia.
  - apply IH. rewrite length_skipn. lia.
Qed.

Lemma concat_chunks {A : Type} (n w : nat) (l : list A) :
  length l = (n * w)%nat -> concat (chunks n w l) = l.
Proof.
  revert l. induction n as [| n IH]; intros l Hl; cbn [chunks concat].
  - destruct l; [reflexivity | discriminate].
  - rewrite IH by (rewrite length_skipn; lia). apply firstn_skipn.
Qed.

Lemma reshape_table_ok {A : Type} (l : list A) (width : Z) (table : list (list A)) :
  reshape_table l width = Ok table ->
  0 < width
  /\ table = chunks (length l / Z.to_nat width) (Z.to_nat width) l
  /\ length l = (length l / Z.to_nat width * Z.to_nat width)%nat.
Proof.
  unfold reshape_table. destruct (Z.leb_spec width 0) as [Hle | Hgt]; [discriminate |].
  destruct (Nat.eqb_spec (length l mod Z.to_nat width) 0) as [Hmod | _]; [| discriminate].
  intros E. inversion E. repeat split; [exact Hgt |].
  pose proof (Nat.div_mod_eq (length l) (Z.to_nat width)). lia.
Qed.

Lemma zrange_In (n i : Z) : In i (zrange 0 n) -> 0 <= i < n.
Proof.
  unfold zrange. rewrite in_map_iff. intros (k & <- & Hk).
  apply in_seq in Hk. lia.
Qed.

Lemma in_firstn {A : Type} (n : nat) (l : list A) (x : A) :
  In x (firstn n l) -> In x l.
Proof.
  intros Hx. rewrite <- (firstn_skipn n l). apply in_or_app. now left.
Qed.

Lemma slice_to_incl {A : Type} (n : Z) (l : list A) (x : A) :
  In x (slice_to n l) -> In x l.
Proof.
  unfold slice_to. destruct (0 <=? n); apply in_firstn.
Qed.

(** The k-th of several lists of one length, read off their concatenation. *)
Lemma concat_segment {A : Type} (ls : list (list A)) (m k : nat) :
  Forall (fun r => length r = m) ls -> (k < length ls)%nat ->
  firstn m (skipn (k * m) (concat ls)) = nth k ls [].
Proof.
  intros Hls. revert k. induction Hls as [| r ls Hr Hls IH]; intros k Hk; cbn in Hk; [lia |].
  cbn [concat]. destruct k as [| k].
  - cbn [Nat.mul skipn nth]. rewrite firstn_app, Hr, Nat.sub_diag.
    cbn [firstn]. rewrite app_nil_r. rewrite <- Hr. apply firstn_all.
  - cbn [nth]. rewrite <- IH by lia.
    replace (S k * m)%nat with (length r + k * m)%nat by (cbn; lia).
    rewrite skipn_app, Nat.add_comm, Nat.add_sub.
    rewrite skipn_all2 by lia. reflexivity.
Qed.

Lemma segment_of_prefix {A : Type} (l : list A) (N a m : nat) :
  (a + m <= N)%nat ->
  firstn m (skipn a (firstn N l)) = firstn m (skipn a l).
Proof.
  intros H. rewrite skipn_firstn_comm, firstn_firstn. f_equal. lia.
Qed.

Lemma length_concat_uniform {A : Type} (ls : list (list A)) (m : nat) :
  Forall (fun r => length r = m) ls -> length (concat ls) = (length ls * m)%nat.
Proof.
  induction 1 as [| r ls Hr Hls IH]; [reflexivity |].
  cbn [concat length]. rewrite length_app, IH, Hr. lia.
Qed.

Section IndexTable.
Variable shuffle : nat -> list Z -> list Z.
Hypothesis shuffle_perm : forall k l, Permutation (shuffle k l) l.
Variables (epoch_length optimization_epochs number_of_batches optimization_batch_size : Z).

#[warnings="-notation-for-abbreviation"]
Local Notation permutations :=
  (shuffled_permutations shuffle epoch_length optimization_epochs).
#[warnings="-notation-for-abbreviation"]
Local Notation sliced :=
  (slice_to (number_of_batches * optimization_batch_size) (concat permutations)).

Lemma permutations_uniform :
  Forall (fun r => length r = Z.to_nat (epoch_length - 1)) permutations.
Proof.
  unfold shuffled_permutations. apply Forall_map, Forall_forall. intros k _.
  rewrite (Permutation_length (shuffle_perm k _)), zrange_length. f_equal. lia.
Qed.

Lemma permutations_in_range (i : Z) :
  In i (concat permutations) -> 0 <= i < epoch_length - 1.
Proof.
  unfold shuffled_permutations. rewrite in_concat. intros (r & Hr & Hi).
  apply in_map_iff in Hr as (k & <- & _).
  apply zrange_In. eapply Permutation_in; [apply shuffle_perm | exact Hi].
Qed.

Lemma index_table_inv (table : list (list Z)) :
  index_table shuffle epoch_length optimization_epochs number_of_batches
              optimization_batch_size = Ok table ->
  (0 < Z.to_nat optimization_epochs)%nat
  /\ 0 < optimization_batch_size
  /\ Forall (fun r => length r = Z.to_nat optimization_batch_size) table
  /\ (length table * Z.to_nat optimization_batch_size)%nat = length sliced
  /\ concat table = sliced.
Proof.
  unfold index_table. intros E.
  apply bind_ok in E as (shuffled & Econcat & E).
  assert (Hoe : (0 < Z.to_nat optimization_epochs)%nat).
  { unfold shuffled_permutations in Econcat.
    destruct (Z.to_nat optimization_epochs); [discriminate | lia]. }
  assert (shuffled = concat permutations) as ->.
  { unfold tf_concat in Econcat. destruct permutations; [discriminate |].
    now inversion Econcat. }
  apply reshape_table_ok in E as (Hw & -> & Hlen).
  repeat split; auto.
  - apply chunks_rows. lia.
  - rewrite chunks_length. lia.
  - now apply concat_chunks.
Qed.

Lemma sliced_prefix :
  0 <= number_of_batches * optimization_batch_size ->
  sliced = firstn (Z.to_nat (number_of_batches * optimization_batch_size))
                  (concat permutations).
Proof.
  intros H. unfold slice_to.
  destruct (Z.leb_spec 0 (number_of_batches * optimization_batch_size)); [reflexivity | lia].
Qed.

(** Every complete permutation segment of the table is one of the shuffles. *)
Lemma table_segment (table : list (list Z)) (k : nat) :
  index_table shuffle epoch_length optimization_epochs number_of_batches
              optimization_batch_size = Ok table ->
  0 < number_of_batches ->
  (k < Z.to_nat optimization_epochs)%nat ->
  (S k * Z.to_nat (epoch_length - 1) <= length (concat table))%nat ->
  Permutation (segment table epoch_length k) (zrange 0 (epoch_length - 1)).
Proof.
  intros E Hnb Hk Hfull.
  destruct (index_table_inv table E) as (_ & Hw & _ & _ & Econcat).
  unfold segment. rewrite Econcat in *.
  rewrite sliced_prefix in * by lia.
  rewrite length_firstn in Hfull.
  rewrite segment_of_prefix by lia.
  rewrite (concat_segment _ _ _ permutations_uniform)
    by (unfold shuffled_permutations; rewrite length_map, length_seq; exact Hk).
  unfold shuffled_permutations.
  rewrite (nth_indep _ [] (shuffle 0 (zrange 0 (epoch_length - 1))))
    by (rewrite length_map, length_seq; exact Hk).
  rewrite (map_nth (fun k => shuffle k (zrange 0 (epoch_length - 1)))).
  apply shuffle_perm.
Qed.
End IndexTable.

Lemma batches_and_length_none (hparams : HParams) (batch_size nb el : Z) :
  effective_num_agents hparams = None ->
  batches_and_length hparams batch_size = Ok (nb, el) ->
  optimization_batch_size hparams <> 0
  /\ nb = (epoch_length hparams - 1) * optimization_epochs hparams
          / optimization_batch_size hparams
  /\ el = epoch_length hparams
  /\ 0 < nb.
Proof.
  intros Hnone E. unfold batches_and_length, floordiv in E. rewrite Hnone in E.
  destruct (Z.eqb_spec (optimization_batch_size hparams) 0) as [| Hobs]; [discriminate |].
  cbn [bind] in E.
  destruct (Z.gtb_spec ((epoch_length hparams - 1) * optimization_epochs hparams
                        / optimization_batch_size hparams) 0); [| discriminate].
  inversion E. subst. repeat split; auto; lia.
Qed.

Lemma batches_positive (hparams : HParams) (batch_size nb el : Z) :
  batches_and_length hparams batch_size = Ok (nb, el) -> 0 < nb.
Proof.
  unfold batches_and_length. intros E.
  apply bind_ok in E as (base & _ & E).
  apply bind_ok in E as ([nb' el'] & _ & E).
  destruct (Z.gtb_spec nb' 0); [| discriminate].
  inversion E. subst. lia.
Qed.

(** C8 (as amended): when the index table is built, every row has
    optimization_batch_size entries, every entry is an index in
    [0, epoch_length - 1), and every permutation segment that lies completely
    in the table holds each value of that range exactly once; when
    effective_num_agents is not configured the table has exactly
    number_of_batches rows. *)
Theorem index_table_properties {obs params : Type} `{Collaborators obs params}
    (hparams : HParams) (batch_size nb el : Z) (table : list (list Z)) :
  batches_and_length hparams batch_size = Ok (nb, el) ->
  index_table random_shuffle el (optimization_epochs hparams) nb
              (optimization_batch_size hparams) = Ok table ->
  Forall (fun r => length r = Z.to_nat (optimization_batch_size hparams)) table
  /\ Forall (Forall (fun i => 0 <= i < el - 1)) table
  /\ (effective_num_agents hparams = None -> length table = Z.to_nat nb)
  /\ (forall k : nat,
        (k < Z.to_nat (optimization_epochs hparams))%nat ->
        (S k * Z.to_nat (el - 1) <= length (concat table))%nat ->
        Permutation (segment table el k) (zrange 0 (el - 1))).
Proof.
  intros Eb Et.
  pose proof (batches_positive _ _ _ _ Eb) as Hnb.
  destruct (index_table_inv random_shuffle _ _ _ _ table Et)
    as (Hoe & Hw & Hrows & Hlen & Econcat).
  repeat split.
  - exact Hrows.
  - apply Forall_concat. rewrite Econcat. apply Forall_forall. intros i Hi.
    apply slice_to_incl in Hi.
    now apply (permutations_in_range random_shuffle random_shuffle_perm) in Hi.
  - intros Hnone.
    destruct (batches_and_length_none _ _ _ _ Hnone Eb) as (Hobs & Enb & Eel & _).
    rewrite sliced_prefix in Hlen by lia.
    rewrite length_firstn in Hlen.
    rewrite (length_concat_uniform _ _
               (permutations_uniform random_shuffle random_shuffle_perm _ _)) in Hlen.
    unfold shuffled_permutations in Hlen. rewrite length_map, length_seq in Hlen.
    assert (Hle : nb * optimization_batch_size hparams
                  <= (el - 1) * optimization_epochs hparams).
    { rewrite Enb, Eel, (Z.mul_comm (_ / _)). apply Z.mul_div_le. lia. }
    assert (Hel : 0 < el - 1) by nia.
    assert (Hmin : (Z.to_nat (nb * optimization_batch_size hparams)
                    <= Z.to_nat (optimization_epochs hparams) * Z.to_nat (el - 1))%nat).
    { rewrite <- Z2Nat.inj_mul by lia. apply Z2Nat.inj_le; lia. }
    rewrite Nat.min_l in Hlen by exact Hmin.
    rewrite Z2Nat.inj_mul in Hlen by lia.
    apply Nat.mul_cancel_r in Hlen; [exact Hlen | lia].
  - intros k Hk Hfull.
    now apply (table_segment random_shuffle random_shuffle_perm
                             el (optimization_epochs hparams) nb
                             (optimization_batch_size hparams)).
Qed.

Lemma index_table_properties_witness :
  length [[0]; [1]] = 2%nat
  /\ Permutation (segment [[0]; [1]] 3 0) (zrange 0 2).
Proof.
  destruct (index_table_properties (H := single_action_world)
              example_hparams 1 2 3 [[0]; [1]] eq_refl eq_refl)
    as (_ & _ & Hlen & Hseg).
  split.
  - apply Hlen. reflexivity.
  - apply (Hseg 0%nat); cbn; lia.
Defined.

(** C8 as stated fails in two ways.  With four steps, one optimization epoch
    and minibatches of two, the single permutation is cut after two entries
    and the index 2 of [0, 3) is in no minibatch.  With effective_num_agents
    configured (nine steps, two epochs, minibatches of two, batch size 2, two
    effective agents) number_of_batches is 8 and the table has 3 rows. *)
Lemma index_table_truncates_and_falls_short :
  match batches_and_length truncating_hparams 1 with
  | Ok (nb, el) =>
      match index_table (random_shuffle (Collaborators := single_action_world))
                        el (optimization_epochs truncating_hparams) nb
                        (optimization_batch_size truncating_hparams) with
      | Ok table => 0 <= 2 < el - 1 /\ ~ In 2 (concat table)
      | Err _ => False
      end
  | Err _ => False
  end
  /\ match batches_and_length effective_agents_hparams 2 with
     | Ok (nb, el) =>
         match index_table (random_shuffle (Collaborators := single_action_world))
                           el (optimization_epochs effective_agents_hparams) nb
                           (optimization_batch_size effective_agents_hparams) with
         | Ok table => Z.of_nat (length table) <> nb
         | Err _ => False
         end
     | Err _ => False
     end.
Proof.
  split.
  - cbn. split; [lia |]. intros [E | [E | []]]; discriminate E.
  - cbn. discriminate.
Qed.

(** ** The epoch summaries *)

(** The accumulators packed by the scan over the minibatches are the running
    sums of the per-minibatch losses. *)
Lemma scan_batches_running_sums {S : Type}
    (body : S * list fval -> Z -> result (S * list fval))
    (state : S * list fval) (batches : list Z)
    (final : S) (accumulators : list (list fval)) :
  (forall s i s', body s i = Ok s' ->
                  exists losses, snd s' = add_lists_elementwise (snd s) losses) ->
  scan_batches body state batches = Ok (final, accumulators) ->
  exists losses_of_batches,
    length losses_of_batches = length batches
    /\ accumulators = scan add_lists_elementwise losses_of_batches (snd state).
Proof.
  intros Hbody. revert state final accumulators.
  induction batches as [| i rest IH]; intros state final accumulators E; cbn in E.
  - inversion E. exists []. split; reflexivity.
  - apply bind_ok in E as (state' & Estep & E).
    apply bind_ok in E as ([final' accs] & Erest & E).
    inversion E; subst final accumulators; clear E.
    destruct (Hbody _ _ _ Estep) as (losses & Hlosses).
    destruct (IH _ _ _ Erest) as (ls & Hlen & Haccs).
    exists (losses :: ls). split; [cbn; lia |].
    cbn [scan]. rewrite <- Hlosses. now f_equal.
Qed.

Lemma scan_body_adds {obs params : Type} `{Kernels} `{Collaborators obs params}
    (input_tensors : DataPoints obs) (indices_of_batches : list (list Z))
    (hparams : HParams) (action_space_n : Z) (lr : fval)
    (distributional_size : Z) (distributional_subscale : Q)
    (s : params * list fval) (i : Z) (s' : params * list fval) :
  scan_body input_tensors indices_of_batches hparams action_space_n lr
            distributional_size distributional_subscale s i = Ok s' ->
  exists losses, snd s' = add_lists_elementwise (snd s) losses.
Proof.
  unfold scan_body. destruct s as [theta a]. intros E.
  apply bind_ok in E as (indices & _ & E).
  apply bind_ok in E as (data_points & _ & E).
  apply bind_ok in E as ([theta' losses] & _ & E).
  inversion E. exists losses. reflexivity.
Qed.

(** C1 fails on the code: on the three-step trajectory with rewards 1 and
    value estimates 0 there are two minibatches, with value losses 4 and 1;
    the scan packs the running sums 4 and 5, and the reported value-loss
    summary is their mean divided by the number of batches, 9/4, not the
    epoch mean 5/2. *)
Theorem epoch_summary_averages_running_sums :
  exists e l0 l1,
    example_epoch = Ok e
    /\ e_number_of_batches e = 2
    /\ minibatch_losses tt example_memory example_hparams 1 1 (1 # 25) e 0 = Ok l0
    /\ minibatch_losses tt example_memory example_hparams 1 1 (1 # 25) e 1 = Ok l1
    /\ feq (nth 1 l0 NaN) (Fin 4)
    /\ feq (nth 1 l1 NaN) (Fin 1)
    /\ nth 1 (e_ppo_step_rets e) [] = [Fin 4; Fin 5]
    /\ feq (nth 1 (e_ppo_summaries e) NaN) (Fin (9 # 4))
    /\ feq (mean_of_two l0 l1 1) (Fin (5 # 2))
    /\ ~ feq (nth 1 (e_ppo_summaries e) NaN) (mean_of_two l0 l1 1).
Proof.
  do 3 eexists.
  split; [vm_compute; reflexivity |].
  split; [reflexivity |].
  split; [vm_compute; reflexivity |].
  split; [vm_compute; reflexivity |].
  vm_compute. repeat split; try reflexivity. discriminate.
Qed.

(** In general: the three loss summaries of an epoch are, per component, the
    mean of the running sums of the per-minibatch losses, divided by
    number_of_batches; the fourth summary is the learning rate. *)
Lemma epoch_summaries_from_running_sums {obs params : Type}
    `{Kernels} `{Collaborators obs params}
    (theta : params) (memory : Memory obs) (hparams : HParams)
    (action_space_n batch_size : Z)
    (distributional_size : Z) (distributional_subscale distributional_threshold : Q)
    (e : Epoch params) :
  define_ppo_epoch theta memory hparams action_space_n batch_size
                   distributional_size distributional_subscale distributional_threshold
  = Ok e ->
  exists losses_of_batches,
    Z.of_nat (length losses_of_batches) = e_number_of_batches e
    /\ e_ppo_step_rets e
       = pack_rets (scan add_lists_elementwise losses_of_batches [Fin 0; Fin 0; Fin 0])
    /\ e_ppo_summaries e
       = summaries_of (e_ppo_step_rets e) (e_number_of_batches e)
         ++ [learning_rate_schedule hparams].
Proof.
  unfold define_ppo_epoch. intros E.
  apply bind_ok in E as ([advantage discounted_reward] & _ & E).
  apply bind_ok in E as ([nb el] & Eb & E).
  apply bind_ok in E as (table & _ & E).
  apply bind_ok in E as ([theta' accumulators] & Escan & E).
  inversion E; subst e; clear E. cbn.
  destruct (scan_batches_running_sums _ _ _ _ _
              (scan_body_adds _ _ _ _ _ _ _) Escan) as (ls & Hlen & Haccs).
  exists ls. repeat split.
  - rewrite Hlen, zrange_length. apply batches_positive in Eb. lia.
  - now rewrite Haccs.
Qed.


(** * Further properties of the module *)

(** ** Consequences of the advantage recurrence *)

(** A returned advantage is the checked tensor: its entries are finite and
    obey the recurrence of the code. *)
Lemma gae_returned_entries
    (reward value : tensor) (done : list (list bool)) (gamma lambda : Q) (T B : nat)
    (A : tensor) :
  (2 <= T)%nat ->
  shape T B reward -> shape T B value -> shape T B done ->
  calculate_generalized_advantage_estimator reward value done gamma lambda = Ok A ->
  forall t b, (t < T - 1)%nat -> (b < B)%nat ->
    exists a d c : Q,
      entry A t b = Fin a
      /\ td_residual reward value done gamma t b = Fin d
      /\ gae_continuation done gamma lambda t b
           (if (S t <? T - 1)%nat then entry A (S t) b else Fin 0) = Fin c
      /\ a = (d + c)%Q.
Proof.
  intros HT Sr Sv Sd EA t b Ht Hb.
  destruct (gae_return reward value done gamma lambda T B HT Sr Sv Sd)
    as (R & E & SR & Hrec).
  rewrite E in EA.
  pose proof (check_numerics_finite _ _ _ EA) as FA.
  apply check_numerics_ok in EA. subst R.
  pose proof (finite_entry (T - 1) B A t b SR FA Ht Hb) as Ea.
  pose proof (Hrec t b Ht Hb) as Et. rewrite Ea in Et. symmetry in Et.
  apply fadd_Fin_inv in Et as (d & c & Ed & Ec & Eq).
  exists (val (entry A t b)), d, c. auto.
Qed.

(** X1: an episode end cuts the advantage.  For tensors of one shape [T, B],
    T >= 2, where done is set at step t + 1 the returned advantage at step t
    is reward_t - value_t: neither the next value nor any later advantage
    enters it. *)
Theorem gae_stops_at_episode_end
    (reward value : tensor) (done : list (list bool)) (gamma lambda : Q) (T B : nat)
    (A : tensor) :
  (2 <= T)%nat ->
  shape T B reward -> shape T B value -> shape T B done ->
  calculate_generalized_advantage_estimator reward value done gamma lambda = Ok A ->
  forall t b, (t < T - 1)%nat -> (b < B)%nat ->
    nth b (nth (S t) done []) false = true ->
    feq (entry A t b) (fsub (entry reward t b) (entry value t b)).
Proof.
  intros HT Sr Sv Sd EA t b Ht Hb Hdone.
  destruct (gae_returned_entries reward value done gamma lambda T B A
              HT Sr Sv Sd EA t b Ht Hb) as (a & d & c & -> & Ed & Ec & ->).
  apply td_residual_Fin_inv in Ed as (r & v' & v & -> & _ & -> & ->).
  apply gae_continuation_Fin_inv in Ec as (x & _ & ->).
  rewrite Hdone. cbn [fsub fopp fadd feq]. ring.
Qed.

Lemma gae_stops_at_episode_end_witness :
  match calculate_generalized_advantage_estimator
          [[Fin 1]; [Fin 1]; [Fin 1]] [[Fin 3]; [Fin 5]; [Fin 7]]
          [[false]; [true]; [false]] 1 1 with
  | Ok A => feq (entry A 0 0) (fsub (Fin 1) (Fin 3))
  | Err _ => False
  end.
Proof.
  destruct (calculate_generalized_advantage_estimator
              [[Fin 1]; [Fin 1]; [Fin 1]] [[Fin 3]; [Fin 5]; [Fin 7]]
              [[false]; [true]; [false]] 1 1) as [A | e] eqn:E.
  - apply (gae_stops_at_episode_end
             [[Fin 1]; [Fin 1]; [Fin 1]] [[Fin 3]; [Fin 5]; [Fin 7]]
             [[false]; [true]; [false]] 1 1 3 1 A).
    + lia.
    + split; [reflexivity | repeat constructor].
    + split; [reflexivity | repeat constructor].
    + split; [reflexivity | repeat constructor].
    + exact E.
    + lia.
    + lia.
    + reflexivity.
  - vm_compute in E. discriminate E.
Defined.

(** X2: with gae_lambda = 0 the returned advantage is the one-step TD
    residual at every step, for tensors of one shape [T, B], T >= 2. *)
Theorem gae_lambda_zero_is_td_residual
    (reward value : tensor) (done : list (list bool)) (gamma lambda : Q) (T B : nat)
    (A : tensor) :
  (2 <= T)%nat ->
  shape T B reward -> shape T B value -> shape T B done ->
  (lambda == 0)%Q ->
  calculate_generalized_advantage_estimator reward value done gamma lambda = Ok A ->
  forall t b, (t < T - 1)%nat -> (b < B)%nat ->
    feq (entry A t b) (td_residual reward value done gamma t b).
Proof.
  intros HT Sr Sv Sd Hl EA t b Ht Hb.
  destruct (gae_returned_entries reward value done gamma lambda T B A
              HT Sr Sv Sd EA t b Ht Hb) as (a & d & c & -> & -> & Ec & ->).
  apply gae_continuation_Fin_inv in Ec as (x & _ & ->).
  cbn [feq]. rewrite Hl. ring.
Qed.

Lemma gae_lambda_zero_is_td_residual_witness :
  match calculate_generalized_advantage_estimator
          [[Fin 1]; [Fin 1]; [Fin 1]] [[Fin 3]; [Fin 5]; [Fin 7]]
          [[false]; [false]; [false]] 1 0 with
  | Ok A =>
      feq (entry A 0 0)
          (td_residual [[Fin 1]; [Fin 1]; [Fin 1]] [[Fin 3]; [Fin 5]; [Fin 7]]
                       [[false]; [false]; [false]] 1 0 0)
  | Err _ => False
  end.
Proof.
  destruct (calculate_generalized_advantage_estimator
              [[Fin 1]; [Fin 1]; [Fin 1]] [[Fin 3]; [Fin 5]; [Fin 7]]
              [[false]; [false]; [false]] 1 0) as [A | e] eqn:E.
  - apply (gae_lambda_zero_is_td_residual
             [[Fin 1]; [Fin 1]; [Fin 1]] [[Fin 3]; [Fin 5]; [Fin 7]]
             [[false]; [false]; [false]] 1 0 3 1 A).
    + lia.
    + split; [reflexivity | repeat constructor].
    + split; [reflexivity | repeat constructor].
    + split; [reflexivity | repeat constructor].
    + reflexivity.
    + exact E.
    + lia.
    + lia.
  - vm_compute in E. discriminate E.
Defined.

(** ** The discounted rewards *)

Lemma not_done_entry (done : list (list bool)) (T B t b : nat) :
  shape T B done -> (t < T)%nat -> (b < B)%nat ->
  entry (not_done_of done) t b = not_done_at done t b.
Proof.
  intros Sd Ht Hb. unfold entry, not_done_of, not_done_row, not_done_at.
  now rewrite (nth2_map _ T B done t b false NaN) by assumption.
Qed.

(** X4: for reward and done tensors of one shape [T, B], T >= 1, and B end
    values, discounted_rewards computes the [T, B] tensor R with R_t =
    reward_t * (1 - done_t) + gamma * R_{t+1}, where the value after the last
    step is end_values * (1 - done_{T-1}): a finished episode contributes no
    bootstrap.  Each operation is the float operation of the code.  It
    returns R when every entry of R is finite, and fails with the
    NumericError "return" otherwise. *)
Theorem discounted_rewards_recurrence
    (reward : tensor) (done : list (list bool)) (gamma : Q) (end_values : row)
    (T B : nat) :
  (1 <= T)%nat ->
  shape T B reward -> shape T B done -> length end_values = B ->
  exists R : tensor,
    shape T B R
    /\ (forall t b, (t < T)%nat -> (b < B)%nat ->
          entry R t b
          = fadd (fmul (entry reward t b) (not_done_at done t b))
                 (fmul (Fin gamma)
                       (if (S t <? T)%nat then entry R (S t) b
                        else fmul (nth b end_values NaN)
                                  (not_done_at done (T - 1) b))))
    /\ match discounted_rewards reward done gamma end_values with
       | Ok returned => returned = R /\ finite_tensor R
       | Err e => e = NumericError "return" /\ ~ finite_tensor R
       end.
Proof.
  intros HT Sr Sd Lend.
  assert (Snd : shape T B (not_done_of done)) by (apply shape_map, Sd).
  assert (Selems : shape T B (t_mul reward (not_done_of done))).
  { unfold t_mul, row_mul. now apply shape_map2. }
  assert (Eelems : forall t b, (t < T)%nat -> (b < B)%nat ->
            entry (t_mul reward (not_done_of done)) t b
            = fmul (entry reward t b) (not_done_at done t b)).
  { intros t b Ht Hb. unfold entry at 1, t_mul, row_mul.
    rewrite (nth2_map2 fmul T B _ _ t b NaN NaN NaN) by assumption.
    fold (entry reward t b) (entry (not_done_of done) t b).
    now rewrite (not_done_entry done T B t b Sd Ht Hb). }
  unfold discounted_rewards.
  rewrite (last_opt_nth _ []) by (destruct Snd as [L _]; destruct (not_done_of done);
                                  [cbn in L; lia | discriminate]).
  rewrite (proj1 Snd).
  assert (Llast : length (nth (T - 1) (not_done_of done) []) = B)
    by (apply (shape_row T B); [exact Snd | lia]).
  set (init := row_mul end_values (nth (T - 1) (not_done_of done) [])).
  assert (Linit : length init = B).
  { unfold init, row_mul. rewrite map2_length. lia. }
  assert (Einit : forall b, (b < B)%nat ->
            nth b init NaN
            = fmul (nth b end_values NaN) (not_done_at done (T - 1) b)).
  { intros b Hb. unfold init, row_mul.
    rewrite (nth_map2 fmul _ _ b NaN NaN NaN) by (rewrite ?Lend, ?Llast; exact Hb).
    fold (entry (not_done_of done) (T - 1) b).
    now rewrite (not_done_entry done T B (T - 1) b Sd) by lia. }
  unfold scan_reverse. rewrite rev_scan_rev.
  set (step := fun agg cur : row => row_add cur (row_scale (Fin gamma) agg)).
  set (R := scanr step (t_mul reward (not_done_of done)) init).
  assert (RR : Forall (fun r => length r = B) R).
  { apply (scanr_preserves (fun r : row => length r = B) (fun r : row => length r = B)).
    - intros a e Ha He. unfold step, row_add, row_scale.
      rewrite map2_length, length_map. lia.
    - exact (proj2 Selems).
    - exact Linit. }
  assert (LR : length R = T).
  { unfold R. now rewrite scanr_length, (proj1 Selems). }
  exists R. split; [now split |]. split; [| apply check_numerics_cases].
  intros t b Ht Hb.
  assert (Lagg : length (nth (S t) R init) = B).
  { destruct (Nat.lt_ge_cases (S t) (length R)) as [L | L].
    - rewrite Forall_forall in RR. now apply RR, nth_In.
    - now rewrite (nth_overflow R init). }
  assert (Eagg : nth b (nth (S t) R init) NaN
                 = if (S t <? T)%nat then entry R (S t) b
                   else fmul (nth b end_values NaN) (not_done_at done (T - 1) b)).
  { destruct (Nat.ltb_spec (S t) T) as [L | L].
    - unfold entry. now rewrite (nth_indep R init []) by lia.
    - rewrite (nth_overflow R init) by lia. now apply Einit. }
  unfold entry at 1. unfold R at 1.
  rewrite (scanr_nth _ _ init t [] []) by (rewrite (proj1 Selems); exact Ht).
  fold R. unfold step, row_add, row_scale.
  assert (Lcur : length (nth t (t_mul reward (not_done_of done)) []) = B)
    by (now apply (shape_row T B)).
  rewrite (nth_map2 fadd _ _ b NaN NaN NaN)
    by (rewrite ?length_map, ?Lagg; lia).
  rewrite (nth_map_any _ _ b NaN NaN) by (rewrite Lagg; exact Hb).
  fold (entry (t_mul reward (not_done_of done)) t b).
  now rewrite (Eelems t b Ht Hb), Eagg.
Qed.

Lemma discounted_rewards_recurrence_witness :
  exists R : tensor,
    shape 2 1 R
    /\ entry R 1 0
       = fadd (fmul (Fin 2) (not_done_at [[false]; [true]] 1 0))
              (fmul (Fin (1 # 2)) (fmul (Fin 10) (not_done_at [[false]; [true]] 1 0)))
    /\ discounted_rewards [[Fin 1]; [Fin 2]] [[false]; [true]] (1 # 2) [Fin 10] = Ok R.
Proof.
  destruct (discounted_rewards_recurrence
              [[Fin 1]; [Fin 2]] [[false]; [true]] (1 # 2) [Fin 10] 2 1)
    as (R & SR & Hrec & Hres).
  - lia.
  - split; [reflexivity | repeat constructor].
  - split; [reflexivity | repeat constructor].
  - reflexivity.
  - exists R. split; [exact SR |]. split.
    + apply (Hrec 1%nat 0%nat); lia.
    + destruct (discounted_rewards [[Fin 1]; [Fin 2]] [[false]; [true]] (1 # 2) [Fin 10])
        as [returned | e] eqn:E.
      * destruct Hres as [-> _]. reflexivity.
      * vm_compute in E. discriminate E.
Defined.

(** ** Too short inputs *)

(** X5: the estimator needs two time steps.  On reward, value and done
    tensors of one shape [T, B] with T <= 1, delta is empty and delta[0, :]
    is an index error; discounted_rewards fails in the same way on reward and
    done tensors without a row (not_done[-1, :]). *)
Theorem recurrences_reject_short_inputs :
  (forall (reward value : tensor) (done : list (list bool)) (gamma lambda : Q) (T B : nat),
      (T <= 1)%nat ->
      shape T B reward -> shape T B value -> shape T B done ->
      calculate_generalized_advantage_estimator reward value done gamma lambda
      = Err IndexError)
  /\ (forall (reward : tensor) (done : list (list bool)) (gamma : Q) (end_values : row)
             (B : nat),
        shape 0 B reward -> shape 0 B done ->
        discounted_rewards reward done gamma end_values = Err IndexError).
Proof.
  split.
  - intros reward value done gamma lambda T B HT [Lr _] [Lv _] [Ld _].
    unfold calculate_generalized_advantage_estimator.
    assert (LD : length (gae_delta reward value done gamma) = 0%nat).
    { unfold gae_delta, t_sub, t_add, t_mul, t_scale, not_done_of, all_but_last.
      rewrite !map2_length, !length_map, !length_removelast, !length_tl. lia. }
    destruct (gae_delta reward value done gamma); [reflexivity | discriminate].
  - intros reward done gamma end_values B _ [Ld _].
    destruct done; [reflexivity | discriminate].
Qed.

Lemma recurrences_reject_short_inputs_witness :
  calculate_generalized_advantage_estimator [[Fin 1]] [[Fin 0]] [[false]] 1 1
  = Err IndexError
  /\ discounted_rewards [] [] 1 [Fin 0] = Err IndexError.
Proof.
  split.
  - apply (proj1 recurrences_reject_short_inputs
             [[Fin 1]] [[Fin 0]] [[false]] 1%Q 1%Q 1%nat 1%nat).
    + lia.
    + split; [reflexivity | repeat constructor].
    + split; [reflexivity | repeat constructor].
    + split; [reflexivity | repeat constructor].
  - apply (proj2 recurrences_reject_short_inputs [] [] 1%Q [Fin 0] 1%nat).
    + split; [reflexivity | constructor].
    + split; [reflexivity | constructor].
Defined.

(** ** A NaN reward is detected *)

Lemma gae_unfold_shapes
    (reward value : tensor) (done : list (list bool)) (gamma lambda : Q) (T B : nat) :
  (2 <= T)%nat ->
  shape T B reward -> shape T B value -> shape T B done ->
  exists zeros : row,
    length zeros = B
    /\ calculate_generalized_advantage_estimator reward value done gamma lambda
       = check_numerics
           (scanr (gae_step gamma lambda)
                  (combine (gae_delta reward value done gamma) (not_done_of (tl done)))
                  zeros)
           "return".
Proof.
  intros HT Sr Sv Sd.
  pose proof (delta_shape reward value done gamma T B Sr Sv Sd) as SD.
  pose proof (next_not_done_shape done T B Sd) as SN.
  unfold calculate_generalized_advantage_estimator.
  destruct (gae_delta reward value done gamma) as [| delta0 delta] eqn:ED.
  { destruct SD as [L _]. cbn in L. lia. }
  exists (map (fun _ => Fin 0) delta0). split.
  - rewrite length_map. destruct SD as [_ RD]. now inversion RD.
  - rewrite combine_rev by (rewrite (proj1 SD), (proj1 SN); reflexivity).
    now rewrite rev_scan_rev.
Qed.

(** X7: a NaN among the rewards that enter the estimator is detected.  For
    tensors of one shape [T, B], T >= 2, a NaN reward at a step t < T - 1
    makes the estimator fail with the NumericError "return". *)
Theorem gae_detects_nan_reward
    (reward value : tensor) (done : list (list bool)) (gamma lambda : Q)
    (T B t b : nat) :
  (2 <= T)%nat ->
  shape T B reward -> shape T B value -> shape T B done ->
  (t < T - 1)%nat -> (b < B)%nat ->
  entry reward t b = NaN ->
  calculate_generalized_advantage_estimator reward value done gamma lambda
  = Err (NumericError "return").
Proof.
  intros HT Sr Sv Sd Ht Hb Hnan.
  pose proof (delta_shape reward value done gamma T B Sr Sv Sd) as SD.
  pose proof (next_not_done_shape done T B Sd) as SN.
  assert (Smul : shape (T - 1) B
                   (t_mul (t_scale (Fin gamma) (tl value)) (not_done_of (tl done)))).
  { unfold t_mul, t_scale, row_mul, row_scale.
    apply shape_map2; [apply shape_map, shape_tl, Sv | exact SN]. }
  assert (ED : entry (gae_delta reward value done gamma) t b = NaN).
  { unfold entry, gae_delta, t_sub, t_add, row_sub, row_add, all_but_last.
    rewrite (nth2_map2 fsub (T - 1) B _ _ t b NaN NaN NaN); auto using shape_removelast.
    - rewrite (nth2_map2 fadd (T - 1) B _ _ t b NaN NaN NaN); auto using shape_removelast.
      rewrite nth_removelast by (rewrite (proj1 Sr); lia).
      fold (entry reward t b). rewrite Hnan. reflexivity.
    - apply shape_map2; [apply shape_removelast, Sr | exact Smul]. }
  destruct (gae_unfold_shapes reward value done gamma lambda T B HT Sr Sv Sd)
    as (zeros & Lz & ->).
  set (D := gae_delta reward value done gamma) in *.
  set (N := not_done_of (tl done)) in *.
  set (A := scanr (gae_step gamma lambda) (combine D N) zeros).
  assert (RA : Forall (fun r => length r = B) A).
  { apply (scanr_preserves (fun r => length r = B)
             (fun e : row * row => length (fst e) = B /\ length (snd e) = B)).
    - intros a e Ha He. now apply gae_step_length.
    - apply combine_lengths; [exact (proj2 SD) | exact (proj2 SN)].
    - exact Lz. }
  assert (LA : length A = (T - 1)%nat).
  { unfold A. rewrite scanr_length, length_combine, (proj1 SD), (proj1 SN). lia. }
  assert (Lrow : length (nth t A []) = B).
  { rewrite Forall_forall in RA. apply RA, nth_In. lia. }
  apply (check_numerics_rejects A "return" t b); [lia | lia |].
  assert (Lagg : length (nth (S t) A zeros) = B).
  { destruct (Nat.lt_ge_cases (S t) (length A)) as [L | L].
    - rewrite Forall_forall in RA. now apply RA, nth_In.
    - now rewrite (nth_overflow A zeros). }
  unfold entry, A.
  rewrite (scanr_nth _ _ zeros t [] ([], []))
    by (rewrite length_combine, (proj1 SD), (proj1 SN); lia).
  fold A.
  rewrite combine_nth by (rewrite (proj1 SD), (proj1 SN); reflexivity).
  unfold gae_step, row_add, row_mul, row_scale_r. cbn [fst snd].
  assert (LD : length (nth t D []) = B) by (now apply (shape_row (T - 1) B)).
  assert (LN : length (nth t N []) = B) by (now apply (shape_row (T - 1) B)).
  rewrite (nth_map2 fadd _ _ b NaN NaN NaN)
    by (rewrite ?map2_length, ?length_map; lia).
  fold (entry D t b). rewrite ED. reflexivity.
Qed.

Lemma gae_detects_nan_reward_witness :
  calculate_generalized_advantage_estimator
    [[NaN]; [Fin 1]] [[Fin 0]; [Fin 0]] [[false]; [false]] 1 1
  = Err (NumericError "return").
Proof.
  apply (gae_detects_nan_reward _ _ _ 1 1 2 1 0 0).
  - lia.
  - split; [reflexivity | repeat constructor].
  - split; [reflexivity | repeat constructor].
  - split; [reflexivity | repeat constructor].
  - lia.
  - lia.
  - reflexivity.
Defined.

(** ** The surrogate objective is the smaller of its two terms *)

Lemma flt_irrefl (x : fval) : flt x x = false.
Proof.
  destruct x as [a | | |]; cbn; try reflexivity.
  now rewrite (proj1 (Qeq_alt a a) (Qeq_refl a)).
Qed.

Lemma flt_asym (x y : fval) : flt x y = true -> flt y x = false.
Proof.
  destruct x as [a | | |], y as [b | | |]; cbn; try congruence.
  rewrite <- (Qcompare_antisym a b).
  destruct (a ?= b)%Q; cbn; congruence.
Qed.

Lemma clip_by_value_inside (c r : Q) :
  (1 - c <= r <= 1 + c)%Q ->
  feq (clip_by_value (Fin r) (Fin (1 - c)) (Fin (1 + c))) (Fin r).
Proof.
  intros [Lo Hi]. unfold clip_by_value, fmin, fmax.
  destruct (flt (Fin r) (Fin (1 + c))) eqn:E1.
  - destruct (flt (Fin (1 - c)) (Fin r)) eqn:E2; cbn.
    + reflexivity.
    + apply flt_Fin_false in E2. lra.
  - apply flt_Fin_false in E1.
    destruct (flt (Fin (1 - c)) (Fin (1 + c))) eqn:E2; cbn.
    + lra.
    + apply flt_Fin_false in E2. lra.
Qed.

(** X8: the surrogate objective of a sample is one of its two terms, the
    clipped one or ratio * advantage, and neither term is below it, whatever
    the ratio and the advantage (special values included: a NaN term compares
    as not smaller).  For a finite ratio inside [1 - c, 1 + c] and a finite
    advantage the clipping is inactive: the surrogate is ratio * advantage. *)
Theorem surrogate_is_pessimistic (c : Q) :
  (forall ratio advantage : fval,
      (surrogate c ratio advantage = clipped_term c ratio advantage
       \/ surrogate c ratio advantage = ratio_term ratio advantage)
      /\ flt (ratio_term ratio advantage) (surrogate c ratio advantage) = false
      /\ flt (clipped_term c ratio advantage) (surrogate c ratio advantage) = false)
  /\ (forall r a : Q,
        (1 - c <= r <= 1 + c)%Q ->
        feq (surrogate c (Fin r) (Fin a)) (ratio_term (Fin r) (Fin a))).
Proof.
  split.
  - intros ratio advantage.
    unfold surrogate. fold (clipped_term c ratio advantage) (ratio_term ratio advantage).
    unfold fmin.
    destruct (flt (clipped_term c ratio advantage) (ratio_term ratio advantage)) eqn:E.
    + split; [now left |]. split; [now apply flt_asym | apply flt_irrefl].
    + split; [now right |]. split; [apply flt_irrefl | exact E].
  - intros r a Hr.
    pose proof (clip_by_value_inside c r Hr) as Hclip.
    unfold surrogate, ratio_term, fmin.
    destruct (clip_by_value (Fin r) (Fin (1 - c)) (Fin (1 + c))) as [k | | |];
      cbn [feq] in Hclip; try contradiction.
    cbn [fmul].
    destruct (flt (Fin (k * a)) (Fin (r * a))); cbn [feq].
    + now rewrite Hclip.
    + reflexivity.
Qed.

Lemma surrogate_is_pessimistic_witness :
  feq (surrogate (1 # 5) (Fin (11 # 10)) (Fin 3)) (ratio_term (Fin (11 # 10)) (Fin 3))
  /\ flt (ratio_term (Fin 2) PInf) (surrogate (1 # 5) (Fin 2) PInf) = false.
Proof.
  split.
  - apply (proj2 (surrogate_is_pessimistic (1 # 5)) (11 # 10) 3%Q). split; qconst.
  - apply (proj1 (surrogate_is_pessimistic (1 # 5)) (Fin 2) PInf).
Defined.

(** ** Failures of the minibatch count *)

(** X10: the minibatch count fails fast.  A zero optimization_batch_size, or
    a zero effective_num_agents, is a ZeroDivisionError; and whenever a
    count is returned it is strictly positive (the assertion), so the scan
    over the minibatches is never empty. *)
Theorem batches_and_length_failures (hparams : HParams) (batch_size : Z) :
  (optimization_batch_size hparams = 0 ->
   batches_and_length hparams batch_size = Err ZeroDivisionError)
  /\ (optimization_batch_size hparams <> 0 ->
      effective_num_agents hparams = Some 0 ->
      batches_and_length hparams batch_size = Err ZeroDivisionError)
  /\ (forall nb el,
        batches_and_length hparams batch_size = Ok (nb, el) ->
        0 < nb
        /\ optimization_batch_size hparams <> 0
        /\ effective_num_agents hparams <> Some 0).
Proof.
  unfold batches_and_length, floordiv. split; [| split].
  - intros ->. reflexivity.
  - intros Hobs ->.
    destruct (Z.eqb_spec (optimization_batch_size hparams) 0); [contradiction |].
    reflexivity.
  - intros nb el E.
    destruct (Z.eqb_spec (optimization_batch_size hparams) 0) as [| Hobs]; [discriminate |].
    cbn [bind] in E. split; [| split; [exact Hobs |]].
    + apply bind_ok in E as ([nb' el'] & _ & E).
      destruct (Z.gtb_spec nb' 0); [| discriminate]. inversion E. subst. lia.
    + intros Hzero. rewrite Hzero in E. cbn in E. discriminate.
Qed.

Lemma batches_and_length_failures_witness :
  batches_and_length
    {| clipping_coef := 1 # 5; value_loss_coef := 1; entropy_loss_coef := 1 # 100;
       gae_gamma := 1; gae_lambda := 1; epoch_length := 129;
       optimization_epochs := 4; optimization_batch_size := 0;
       effective_num_agents := None; rewards_preprocessing_fun := None;
       policy_network := "feed_forward_categorical_policy" |} 16
  = Err ZeroDivisionError.
Proof.
  apply (proj1 (batches_and_length_failures _ 16)). reflexivity.
Defined.

(** ** Building and reading the index table *)

Lemma shuffled_length (shuffle : nat -> list Z -> list Z)
    (shuffle_perm : forall k l, Permutation (shuffle k l) l) (el oe : Z) :
  length (concat (shuffled_permutations shuffle el oe))
  = (Z.to_nat oe * Z.to_nat (el - 1))%nat.
Proof.
  rewrite (length_concat_uniform _ _ (permutations_uniform shuffle shuffle_perm el oe)).
  unfold shuffled_permutations. now rewrite length_map, length_seq.
Qed.

(** X11: without effective_num_agents, for positive optimization_epochs and
    optimization_batch_size, the index table is always built once the
    minibatch count is accepted: it uses exactly number_of_batches *
    optimization_batch_size of the (epoch_length - 1) * optimization_epochs
    shuffled indices, and the truncation drops fewer than
    optimization_batch_size of them. *)
Theorem index_table_is_built {obs params : Type} `{Collaborators obs params}
    (hparams : HParams) (batch_size nb el : Z) :
  effective_num_agents hparams = None ->
  0 < optimization_epochs hparams ->
  0 < optimization_batch_size hparams ->
  batches_and_length hparams batch_size = Ok (nb, el) ->
  exists table,
    index_table random_shuffle el (optimization_epochs hparams) nb
                (optimization_batch_size hparams) = Ok table
    /\ length table = Z.to_nat nb
    /\ Z.of_nat (length (concat table)) = nb * optimization_batch_size hparams
    /\ 0 <= (el - 1) * optimization_epochs hparams
            - nb * optimization_batch_size hparams
         < optimization_batch_size hparams.
Proof.
  intros Hnone Hoe Hw Eb.
  destruct (batches_and_length_none _ _ _ _ Hnone Eb) as (_ & Enb & Eel & Hnb).
  set (oe := optimization_epochs hparams) in *.
  set (w := optimization_batch_size hparams) in *.
  assert (Hdrop : 0 <= (el - 1) * oe - nb * w < w).
  { rewrite Enb, Eel.
    pose proof (Z.mod_pos_bound ((epoch_length hparams - 1) * oe) w Hw) as Hm.
    rewrite Z.mod_eq in Hm by lia. lia. }
  assert (Hel : 0 < el - 1) by nia.
  assert (Hlen : length (slice_to (nb * w)
                           (concat (shuffled_permutations random_shuffle el oe)))
                 = (Z.to_nat nb * Z.to_nat w)%nat).
  { unfold slice_to. destruct (Z.leb_spec 0 (nb * w)); [| nia].
    rewrite length_firstn, (shuffled_length _ random_shuffle_perm).
    rewrite <- !Z2Nat.inj_mul by lia. apply Nat.min_l, Z2Nat.inj_le; lia. }
  unfold index_table, tf_concat.
  destruct (shuffled_permutations random_shuffle el oe) as [| p ps] eqn:EP.
  { apply (f_equal (@length _)) in EP. unfold shuffled_permutations in EP.
    rewrite length_map, length_seq in EP. cbn in EP. lia. }
  cbn [bind].
  unfold reshape_table. destruct (Z.leb_spec w 0); [lia |].
  rewrite Hlen, Nat.Div0.mod_mul, Nat.eqb_refl.
  eexists. split; [reflexivity |].
  rewrite Nat.div_mul by lia. split; [apply chunks_length |]. split; [| exact Hdrop].
  rewrite concat_chunks by exact Hlen. rewrite Hlen. lia.
Qed.

Lemma index_table_is_built_witness :
  exists table,
    index_table (random_shuffle (Collaborators := single_action_world)) 129 4 8 64
    = Ok table
    /\ length table = 8%nat.
Proof.
  destruct (index_table_is_built (H := single_action_world) hparams_129 16 8 129)
    as (table & E & L & _); try reflexivity.
  exists table. split; assumption.
Defined.

Lemma gather_in_range {A : Type} (t : list A) (indices : list Z) :
  Forall (fun i => 0 <= i < Z.of_nat (length t)) indices ->
  exists l,
    gather t indices = Ok l
    /\ Forall2 (fun i x => nth_error t (Z.to_nat i) = Some x) indices l.
Proof.
  unfold gather. induction 1 as [| i indices Hi Hrest IH].
  - exists []. split; [reflexivity | constructor].
  - destruct IH as (l & El & Hl). cbn [mapM].
    destruct (Z.ltb_spec i 0); [lia |].
    destruct (nth_error t (Z.to_nat i)) as [x |] eqn:Ex.
    + cbn [bind]. rewrite El. cbn [bind]. exists (x :: l). split; [reflexivity |].
      now constructor.
    + apply nth_error_None in Ex. lia.
Qed.

(** X12: every row of the index table can be gathered from any tensor with
    at least epoch_length - 1 time steps: the gather never fails with an
    index error, and it returns, in the order of the row, the
    optimization_batch_size time steps the row names. *)
Theorem minibatch_rows_gather {obs params : Type} `{Collaborators obs params}
    {A : Type} (t : list A) (el oe nb w : Z) (table : list (list Z)) (indices : list Z) :
  index_table random_shuffle el oe nb w = Ok table ->
  In indices table ->
  (Z.to_nat (el - 1) <= length t)%nat ->
  exists l,
    gather t indices = Ok l
    /\ length l = Z.to_nat w
    /\ Forall2 (fun i x => nth_error t (Z.to_nat i) = Some x) indices l.
Proof.
  intros Et Hrow Hlen.
  destruct (index_table_inv random_shuffle _ _ _ _ table Et)
    as (_ & _ & Hrows & _ & Econcat).
  assert (Hrange : Forall (fun i => 0 <= i < Z.of_nat (length t)) indices).
  { apply Forall_forall. intros i Hi.
    assert (Hin : In i (concat table)) by (apply in_concat; eauto).
    rewrite Econcat in Hin. apply slice_to_incl in Hin.
    apply (permutations_in_range random_shuffle random_shuffle_perm) in Hin. lia. }
  destruct (gather_in_range t indices Hrange) as (l & El & Hl).
  exists l. split; [exact El |]. split; [| exact Hl].
  rewrite <- (Forall2_length Hl).
  rewrite Forall_forall in Hrows. now apply Hrows.
Qed.

Lemma minibatch_rows_gather_witness :
  exists l,
    gather [[Fin 2]; [Fin 1]; [Fin 0]] [1] = Ok l /\ length l = 1%nat.
Proof.
  destruct (minibatch_rows_gather (H := single_action_world)
              [[Fin 2]; [Fin 1]; [Fin 0]] 3 1 2 1 [[0]; [1]] [1])
    as (l & E & L & _).
  - reflexivity.
  - right. left. reflexivity.
  - cbn. lia.
  - exists l. split; assumption.
Defined.

(** ** The loop over the minibatches *)

Section Loop.
Context {obs params : Type} `{Kernels} `{Collaborators obs params}.
Variables (hparams : HParams) (action_space_n : Z) (lr : fval).
Variables (distributional_size : Z) (distributional_subscale : Q).

Lemma define_ppo_step_ok (theta theta' : params) (data_points : DataPoints obs)
    (losses : list fval) :
  define_ppo_step theta data_points hparams action_space_n lr
                  distributional_size distributional_subscale = Ok (theta', losses) ->
  theta' = optimize theta hparams lr data_points /\ length losses = 3%nat.
Proof.
  unfold define_ppo_step.
  destruct (get_policy theta hparams action_space_n distributional_size
                       (concat (dp_observation data_points))) as [logits new_value].
  intros E. apply bind_ok in E as (logits' & _ & E).
  apply bind_ok in E as (value_loss & _ & E).
  inversion E. split; reflexivity.
Qed.

Lemma run_steps_params (theta final : params) (batches : list (DataPoints obs))
    (losses : list (list fval)) :
  run_steps theta batches hparams action_space_n lr
            distributional_size distributional_subscale = Ok (final, losses) ->
  final = fold_left (fun th dp => optimize th hparams lr dp) batches theta
  /\ length losses = length batches
  /\ Forall (fun l => length l = 3%nat) losses.
Proof.
  revert theta final losses.
  induction batches as [| dp rest IH]; intros theta final losses E; cbn in E.
  - inversion E. repeat split. constructor.
  - apply bind_ok in E as ([theta1 l] & Estep & E).
    apply bind_ok in E as ([final' later] & Erest & E).
    inversion E; subst final losses; clear E.
    apply define_ppo_step_ok in Estep as [-> Hl].
    destruct (IH _ _ _ Erest) as (Hf & Hlen & Hall).
    cbn [fold_left length]. repeat split; auto.
Qed.

Lemma scan_batches_run (input_tensors : DataPoints obs) (table : list (list Z))
    (batches : list Z) (theta final : params) (a : list fval)
    (accumulators : list (list fval)) :
  scan_batches
    (scan_body input_tensors table hparams action_space_n lr
               distributional_size distributional_subscale)
    (theta, a) batches = Ok (final, accumulators) ->
  exists minibatches losses,
    mapM (fun i => indices <- table_row table i ;;
                   gather_points input_tensors indices) batches = Ok minibatches
    /\ run_steps theta minibatches hparams action_space_n lr
                 distributional_size distributional_subscale = Ok (final, losses)
    /\ accumulators = scan add_lists_elementwise losses a.
Proof.
  revert theta final a accumulators.
  induction batches as [| i rest IH]; intros theta final a accumulators E; cbn in E.
  - inversion E. exists [], []. repeat split.
  - apply bind_ok in E as ([theta1 a1] & Ebody & E).
    apply bind_ok in E as ([final' accs] & Erest & E).
    inversion E; subst final accumulators; clear E.
    unfold scan_body in Ebody.
    apply bind_ok in Ebody as (indices & Eidx & Ebody).
    apply bind_ok in Ebody as (dp & Edp & Ebody).
    apply bind_ok in Ebody as ([theta2 l] & Estep & Ebody).
    inversion Ebody; subst theta1 a1; clear Ebody.
    destruct (IH _ _ _ _ Erest) as (mbs & ls & Embs & Erun & Haccs).
    exists (dp :: mbs), (l :: ls). cbn [mapM run_steps scan snd].
    rewrite Eidx. cbn [bind]. rewrite Edp. cbn [bind]. rewrite Embs. cbn [bind].
    rewrite Estep. cbn [bind]. rewrite Erun. cbn [bind].
    repeat split. now rewrite Haccs.
Qed.
End Loop.

(** X13: an epoch that returns has run define_ppo_step once per row of the
    index table, in row order, each step on the variables left by the step
    before: the final variables are the optimizer updates folded over the
    number_of_batches gathered minibatches, and the tensors packed by the
    scan are the running sums of the three losses of these steps. *)
Theorem epoch_runs_minibatches_in_order {obs params : Type}
    `{Kernels} `{Collaborators obs params}
    (theta : params) (memory : Memory obs) (hparams : HParams)
    (action_space_n batch_size : Z)
    (distributional_size : Z) (distributional_subscale distributional_threshold : Q)
    (e : Epoch params) :
  define_ppo_epoch theta memory hparams action_space_n batch_size
                   distributional_size distributional_subscale distributional_threshold
  = Ok e ->
  exists minibatches losses,
    epoch_minibatches memory e = Ok minibatches
    /\ Z.of_nat (length minibatches) = e_number_of_batches e
    /\ run_steps theta minibatches hparams action_space_n
                 (learning_rate_schedule hparams)
                 distributional_size distributional_subscale
       = Ok (e_params e, losses)
    /\ e_params e
       = fold_left (fun th dp => optimize th hparams (learning_rate_schedule hparams) dp)
                   minibatches theta
    /\ Forall (fun l => length l = 3%nat) losses
    /\ e_ppo_step_rets e
       = pack_rets (scan add_lists_elementwise losses [Fin 0; Fin 0; Fin 0]).
Proof.
  unfold define_ppo_epoch. intros E.
  apply bind_ok in E as ([advantage discounted_reward] & _ & E).
  apply bind_ok in E as ([nb el] & Eb & E).
  apply bind_ok in E as (table & _ & E).
  apply bind_ok in E as ([theta' accumulators] & Escan & E).
  inversion E; subst e; clear E.
  unfold epoch_minibatches, epoch_input_tensors. cbn.
  destruct (scan_batches_run _ _ _ _ _ _ _ _ _ _ _ _ Escan)
    as (mbs & ls & Embs & Erun & Haccs).
  destruct (run_steps_params _ _ _ _ _ _ _ _ _ Erun) as (Hf & Hlen & Hall).
  exists mbs, ls. repeat split; auto.
  - rewrite (mapM_length _ _ _ Embs), zrange_length.
    apply batches_positive in Eb. lia.
  - now rewrite Haccs.
Qed.

Lemma epoch_runs_minibatches_in_order_witness :
  exists e minibatches losses,
    example_epoch = Ok e
    /\ epoch_minibatches example_memory e = Ok minibatches
    /\ Z.of_nat (length minibatches) = e_number_of_batches e
    /\ run_steps tt minibatches example_hparams 1 (learning_rate_schedule example_hparams)
                 1 (1 # 25)
       = Ok (e_params e, losses).
Proof.
  destruct example_epoch as [e | err] eqn:E; [| vm_compute in E; discriminate E].
  destruct (epoch_runs_minibatches_in_order
              tt example_memory example_hparams 1 1 1 (1 # 25) 0 e E)
    as (minibatches & losses & H1 & H2 & H3 & _).
  exists e, minibatches, losses. repeat split; assumption.
Defined.

Lemma single_summary (p : fval) :
  feq (fdiv (reduce_mean1 [fadd (Fin 0) p]) (of_Z 1)) p.
Proof.
  unfold reduce_mean1, fsum, of_nat, of_Z. cbn [fold_left length Z.of_nat].
  destruct p as [q | | |]; cbn; try exact I.
  field.
Qed.

(** X14: when number_of_batches is 1 the three reported loss summaries are
    the losses of the single minibatch step, and the fourth summary is the
    learning rate. *)
Theorem single_minibatch_summaries {obs params : Type}
    `{Kernels} `{Collaborators obs params}
    (theta : params) (memory : Memory obs) (hparams : HParams)
    (action_space_n batch_size : Z)
    (distributional_size : Z) (distributional_subscale distributional_threshold : Q)
    (e : Epoch params) :
  define_ppo_epoch theta memory hparams action_space_n batch_size
                   distributional_size distributional_subscale distributional_threshold
  = Ok e ->
  e_number_of_batches e = 1 ->
  exists data_points losses,
    epoch_minibatches memory e = Ok [data_points]
    /\ define_ppo_step theta data_points hparams action_space_n
                       (learning_rate_schedule hparams)
                       distributional_size distributional_subscale
       = Ok (e_params e, losses)
    /\ Forall2 feq (firstn 3 (e_ppo_summaries e)) losses
    /\ nth 3 (e_ppo_summaries e) NaN = learning_rate_schedule hparams.
Proof.
  unfold define_ppo_epoch. intros E Hone.
  apply bind_ok in E as ([advantage discounted_reward] & _ & E).
  apply bind_ok in E as ([nb el] & Eb & E).
  apply bind_ok in E as (table & _ & E).
  apply bind_ok in E as ([theta' accumulators] & Escan & E).
  inversion E; subst e; clear E. cbn in Hone. subst nb.
  unfold epoch_minibatches, epoch_input_tensors. cbn.
  destruct (scan_batches_run _ _ _ _ _ _ _ _ _ _ _ _ Escan)
    as (mbs & ls & Embs & Erun & Haccs).
  change (zrange 0 1) with [0] in *.
  pose proof (mapM_length _ _ _ Embs) as Lmbs.
  destruct mbs as [| dp [| dp' mbs]]; try discriminate Lmbs.
  cbn [run_steps] in Erun.
  apply bind_ok in Erun as ([theta1 l] & Estep & Erun).
  cbn [bind] in Erun. inversion Erun; subst theta1 ls; clear Erun.
  pose proof (proj2 (define_ppo_step_ok _ _ _ _ _ _ _ _ _ Estep)) as Ll.
  destruct l as [| p [| v [| en [| ? ?]]]]; try discriminate Ll.
  exists dp, [p; v; en]. split; [exact Embs |]. split; [exact Estep |].
  subst accumulators. cbn. split; [| reflexivity].
  repeat constructor; apply single_summary.
Qed.

Lemma single_minibatch_summaries_witness :
  exists e data_points losses,
    define_ppo_epoch tt example_memory single_batch_hparams 1 1 1 (1 # 25) 0 = Ok e
    /\ epoch_minibatches example_memory e = Ok [data_points]
    /\ Forall2 feq (firstn 3 (e_ppo_summaries e)) losses.
Proof.
  destruct (define_ppo_epoch tt example_memory single_batch_hparams 1 1 1 (1 # 25) 0)
    as [e | err] eqn:E; [| vm_compute in E; discriminate E].
  destruct (single_minibatch_summaries
              tt example_memory single_batch_hparams 1 1 1 (1 # 25) 0 e E)
    as (data_points & losses & H1 & _ & H3 & _).
  - revert E. vm_compute. intros E. inversion E. reflexivity.
  - exists e, data_points, losses. repeat split; assumption.
Defined.
